(** * graceful: sequential startup, monitoring and shutdown of an application

    A shallow embedding of the Go package [graceful] (Start, Shutdown, Multi,
    parseOptions, ExitReason.ToPrintable) and the properties of its
    orchestration engine.

    Go values are embedded as follows.
    - [error] is an interface value: [None] is Go's [nil], [Some e] a non-nil
      error.
    - [time.Duration] is an [int64] count of nanoseconds: a [Z].  The code only
      compares durations, so no wrap-around arises.
    - a buffered channel is its buffer, a list in FIFO order, together with
      its capacity; a send needs room, a receive needs a value.
    - a goroutine is a program counter; the interleaving of goroutines, the
      case a [select] takes when several are ready, the moment at which a
      step function returns and the value it returns are chosen by an
      explicit schedule, a list of events.  *)

From Stdlib Require Import ZArith Lia.
From stdpp Require Import base option list strings.

Local Open Scope string_scope.
Local Open Scope list_scope.
Local Open Scope Z_scope.

(** ** Errors, signals and contexts *)

(** Non-nil error values.  [ErrString] stands for the values built by
    [fmt.Errorf] / [errors.New]; the other two are the errors of package
    [context]. *)
Inductive err : Type :=
  | ErrString (msg : string)
  | Canceled
  | DeadlineExceeded.

Definition error : Type := option err.

#[global] Instance err_eq_dec : EqDecision err.
Proof. solve_decision. Defined.

(** The [Error()] method. *)
Definition Error (e : err) : string :=
  match e with
  | ErrString msg => msg
  | Canceled => "context canceled"
  | DeadlineExceeded => "context deadline exceeded"
  end.

Definition is_nil (e : error) : bool :=
  match e with None => true | Some _ => false end.

(** [os.Signal], by signal number.  [os.Interrupt] is [syscall.SIGINT]. *)
Definition Signal : Type := nat.
Definition SIGINT : Signal := 2%nat.
Definition Interrupt : Signal := SIGINT.
Definition SIGTERM : Signal := 15%nat.

(** A [context.Context] as Start builds it: [context.Background()], which is
    never done and whose cancel function is [nop], or a child made by
    [context.WithTimeout], which carries what its [Err()] returns: [None] as
    long as [Done()] is open.  The first of cancel and deadline wins. *)
Inductive context : Type :=
  | Background
  | WithTimeout (e : error).

(** [ctx.Err()]; [ctx.Done()] is closed exactly when it is non-nil. *)
Definition ctxErr (c : context) : error :=
  match c with
  | Background => None
  | WithTimeout e => e
  end.

Definition finish (why : err) (c : context) : context :=
  match c with
  | WithTimeout None => WithTimeout (Some why)
  | _ => c
  end.

(** Calling the cancel function returned with the context. *)
Definition cancel : context -> context := finish Canceled.
(** The deadline timer firing. *)
Definition expire : context -> context := finish DeadlineExceeded.

(** ** Channels *)

Module Chan.
Section Chan.
Context {A : Type}.

(** A non-blocking send (a [select] with a [default] case around the send):
    the value is stored when the buffer has room and dropped otherwise. *)
Definition try_send (capacity : nat) (x : A) (buf : list A) : list A :=
  if (length buf <? capacity)%nat then buf ++ [x] else buf.

(** A blocking send can proceed only when the buffer has room. *)
Definition send (capacity : nat) (x : A) (buf : list A) : option (list A) :=
  if (length buf <? capacity)%nat then Some (buf ++ [x]) else None.

(** A receive can proceed only when a value is buffered. *)
Definition recv (buf : list A) : option (A * list A) :=
  match buf with
  | [] => None
  | x :: buf' => Some (x, buf')
  end.

End Chan.
End Chan.

(** ** ExitReason and its rendering *)

Record ExitReason : Type := mkExitReason {
  OsSignal : option Signal;
  ErrStartup : error;
  ErrRuntime : error;
  ErrsShutdown : list error
}.

Record ExitReasonPrintable : Type := mkPrintable {
  pOsSignal : string;
  pErrStartup : string;
  pErrRuntime : string;
  pErrsShutdown : list string
}.

(** [er := &ExitReason{}] *)
Definition emptyExitReason : ExitReason := mkExitReason None None None [].

Definition set_OsSignal (x : option Signal) (er : ExitReason) : ExitReason :=
  mkExitReason x (ErrStartup er) (ErrRuntime er) (ErrsShutdown er).
Definition set_ErrStartup (x : error) (er : ExitReason) : ExitReason :=
  mkExitReason (OsSignal er) x (ErrRuntime er) (ErrsShutdown er).
Definition set_ErrRuntime (x : error) (er : ExitReason) : ExitReason :=
  mkExitReason (OsSignal er) (ErrStartup er) x (ErrsShutdown er).
Definition append_ErrsShutdown (x : error) (er : ExitReason) : ExitReason :=
  mkExitReason (OsSignal er) (ErrStartup er) (ErrRuntime er) (ErrsShutdown er ++ [x]).

Section Rendering.

(** The [String()] method of the signal type, which lives in package
    [syscall]. *)
Variable signalString : Signal -> string.

Definition render (e : error) : string :=
  match e with None => "" | Some x => Error x end.

(** The loop [for _, e := range er.ErrsShutdown { ... e.Error() }]: calling
    a method on a nil interface value panics, which is [None] here. *)
Fixpoint renderAll (acc : list string) (es : list error) : option (list string) :=
  match es with
  | [] => Some acc
  | None :: _ => None
  | Some x :: es' => renderAll (acc ++ [Error x]) es'
  end.

Definition ToPrintable (er : ExitReason) : option ExitReasonPrintable :=
  let sig := match OsSignal er with Some s => signalString s | None => "" end in
  match renderAll [] (ErrsShutdown er) with
  | Some l => Some (mkPrintable sig (render (ErrStartup er)) (render (ErrRuntime er)) l)
  | None => None
  end.

End Rendering.

(** ** Options *)

(** The dynamic type of an [any] payload, as far as [parseOptions] tells
    types apart. *)
Inductive any : Type :=
  | VDuration (d : Z)
  | VSignals (sigs : list Signal)
  | VOther.

Record option_ : Type := mkOption { code : Z; value : any }.

Record config : Type := mkConfig {
  shutdownTimeout : Z;
  startupTimeout : Z;
  signals : list Signal
}.

Definition optionStartupTimeout : Z := 1.
Definition optionShutdownTimeout : Z := 2.
Definition optionSignals : Z := 10.

(** [parseOptions] updates the configuration in place and returns the first
    error; the configuration as it is left is returned along with it. The
    options are non-nil pointers. *)
Fixpoint parseOptions (cfg : config) (opts : list option_) : config * error :=
  match opts with
  | [] => (cfg, None)
  | opt :: opts' =>
    if code opt =? optionStartupTimeout then
      match value opt with
      | VDuration v =>
        if v <? 1 then (cfg, Some (ErrString "startup timeout must be positive"))
        else parseOptions (mkConfig (shutdownTimeout cfg) v (signals cfg)) opts'
      | _ => (cfg, Some (ErrString "failed to cast StartupTimeout to time.Duration"))
      end
    else if code opt =? optionShutdownTimeout then
      match value opt with
      | VDuration v =>
        if v <? 1 then (cfg, Some (ErrString "shutdown timeout must be positive"))
        else parseOptions (mkConfig v (startupTimeout cfg) (signals cfg)) opts'
      | _ => (cfg, Some (ErrString "failed to cast StartupTimeout to time.Duration"))
      end
    else if code opt =? optionSignals then
      match value opt with
      | VSignals sigs =>
        parseOptions
          (mkConfig (shutdownTimeout cfg) (startupTimeout cfg) (signals cfg ++ sigs)) opts'
      | _ => (cfg, Some (ErrString "failed to cast signals"))
      end
    else parseOptions cfg opts'
  end.

Definition WithStartupTimeout (d : Z) : option_ := mkOption optionStartupTimeout (VDuration d).
Definition WithShutdownTimeout (d : Z) : option_ := mkOption optionShutdownTimeout (VDuration d).
Definition WithSignals (sigs : list Signal) : option_ := mkOption optionSignals (VSignals sigs).

(** The configuration Start begins with. *)
Definition defaultConfig : config := mkConfig 0 0 [Interrupt; SIGINT; SIGTERM].

(** ** Shutdown *)

(** [rte = make(chan error, 1)] *)
Definition rteCap : nat := 1.

(** [Shutdown(err)]: [select { case rte <- err: default: }] on the buffer of
    the package-level channel. *)
Definition Shutdown (e : error) (rte : list error) : list error :=
  Chan.try_send rteCap e rte.

(** ** Start *)

(** A call of a step function and its return, by the position of the step
    in its list.  The step functions themselves are opaque: what a step
    returns, and when, is an event of the schedule. *)
Inductive call_event : Type :=
  | Invoke (i : nat)
  | Return (i : nat) (e : error).

#[global] Instance call_event_eq_dec : EqDecision call_event.
Proof. solve_decision. Defined.

(** The goroutine that runs the startup functions. *)
Inductive startup_pc : Type :=
  | SWNone                          (* never spawned *)
  | SWLoop (i : nat)                (* for _, fn := range startupFns, at position i *)
  | SWCall (i : nat)                (* fn(stCtx) is running *)
  | SWSendErr (i : nat) (x : err)   (* fnErrs <- err *)
  | SWCancel (i : nat) (x : err)    (* stCancel() *)
  | SWReturned (i : nat) (x : err)  (* return *)
  | SWSendNil                       (* fnErrs <- nil *)
  | SWEnd.

(** The goroutine that runs the shutdown functions. *)
Inductive shutdown_pc : Type :=
  | DWNone                          (* not spawned *)
  | DWLoop (i : nat)                (* for _, fn := range shutdownFns, at position i *)
  | DWCall (i : nat)                (* fn(sdCtx) is running *)
  | DWSend (i : nat) (e : error)    (* fnErrs <- the value fn(sdCtx) returned *)
  | DWEnd.

(** The goroutine that called Start. *)
Inductive main_pc : Type :=
  | MStartupSelect                  (* select { case <-fnErrs: case <-stCtx.Done(): } *)
  | MTrigger                        (* select { case <-rte: case <-osSig: } *)
  | MCollect (i : nat)              (* the select of the Shutdown loop, i iterations done *)
  | MReturned.                      (* return er *)

Record state : Type := mkState {
  pc : main_pc;
  er : ExitReason;
  fnErrs : list error;              (* make(chan error, 1) *)
  rte : list error;                 (* the package-level channel *)
  osSig : list Signal;              (* make(chan os.Signal, 1) *)
  notified : bool;                  (* signal.Notify(osSig, config.signals...) was called *)
  stCtx : context;
  sdCtx : context;
  stW : startup_pc;
  sdW : shutdown_pc;
  (* history, for the statements only *)
  stLog : list call_event;          (* calls of startup functions *)
  sdLog : list call_event;          (* calls of shutdown functions *)
  rxLog : list error                (* values the Shutdown loop received from fnErrs *)
}.

Definition set_pc (x : main_pc) (s : state) : state :=
  mkState x (er s) (fnErrs s) (rte s) (osSig s) (notified s) (stCtx s) (sdCtx s)
          (stW s) (sdW s) (stLog s) (sdLog s) (rxLog s).
Definition set_er (x : ExitReason) (s : state) : state :=
  mkState (pc s) x (fnErrs s) (rte s) (osSig s) (notified s) (stCtx s) (sdCtx s)
          (stW s) (sdW s) (stLog s) (sdLog s) (rxLog s).
Definition set_fnErrs (x : list error) (s : state) : state :=
  mkState (pc s) (er s) x (rte s) (osSig s) (notified s) (stCtx s) (sdCtx s)
          (stW s) (sdW s) (stLog s) (sdLog s) (rxLog s).
Definition set_rte (x : list error) (s : state) : state :=
  mkState (pc s) (er s) (fnErrs s) x (osSig s) (notified s) (stCtx s) (sdCtx s)
          (stW s) (sdW s) (stLog s) (sdLog s) (rxLog s).
Definition set_osSig (x : list Signal) (s : state) : state :=
  mkState (pc s) (er s) (fnErrs s) (rte s) x (notified s) (stCtx s) (sdCtx s)
          (stW s) (sdW s) (stLog s) (sdLog s) (rxLog s).
Definition set_notified (x : bool) (s : state) : state :=
  mkState (pc s) (er s) (fnErrs s) (rte s) (osSig s) x (stCtx s) (sdCtx s)
          (stW s) (sdW s) (stLog s) (sdLog s) (rxLog s).
Definition set_stCtx (x : context) (s : state) : state :=
  mkState (pc s) (er s) (fnErrs s) (rte s) (osSig s) (notified s) x (sdCtx s)
          (stW s) (sdW s) (stLog s) (sdLog s) (rxLog s).
Definition set_sdCtx (x : context) (s : state) : state :=
  mkState (pc s) (er s) (fnErrs s) (rte s) (osSig s) (notified s) (stCtx s) x
          (stW s) (sdW s) (stLog s) (sdLog s) (rxLog s).
Definition set_stW (x : startup_pc) (s : state) : state :=
  mkState (pc s) (er s) (fnErrs s) (rte s) (osSig s) (notified s) (stCtx s) (sdCtx s)
          x (sdW s) (stLog s) (sdLog s) (rxLog s).
Definition set_sdW (x : shutdown_pc) (s : state) : state :=
  mkState (pc s) (er s) (fnErrs s) (rte s) (osSig s) (notified s) (stCtx s) (sdCtx s)
          (stW s) x (stLog s) (sdLog s) (rxLog s).
Definition log_st (x : call_event) (s : state) : state :=
  mkState (pc s) (er s) (fnErrs s) (rte s) (osSig s) (notified s) (stCtx s) (sdCtx s)
          (stW s) (sdW s) (stLog s ++ [x]) (sdLog s) (rxLog s).
Definition log_sd (x : call_event) (s : state) : state :=
  mkState (pc s) (er s) (fnErrs s) (rte s) (osSig s) (notified s) (stCtx s) (sdCtx s)
          (stW s) (sdW s) (stLog s) (sdLog s ++ [x]) (rxLog s).
Definition log_rx (x : error) (s : state) : state :=
  mkState (pc s) (er s) (fnErrs s) (rte s) (osSig s) (notified s) (stCtx s) (sdCtx s)
          (stW s) (sdW s) (stLog s) (sdLog s) (rxLog s ++ [x]).

(** What the schedule chooses. *)
Inductive event : Type :=
  | EvStartupNext                   (* the startup goroutine runs its next statement *)
  | EvStartupReturn (e : error)     (* the startup function that is running returns e *)
  | EvStartupDeadline               (* the timer of stCtx fires *)
  | EvShutdownNext                  (* the shutdown goroutine runs its next statement *)
  | EvShutdownReturn (e : error)    (* the shutdown function that is running returns e *)
  | EvShutdownDeadline              (* the timer of sdCtx fires *)
  | EvRecvFnErrs                    (* the select Start is at takes its case <-fnErrs *)
  | EvCtxDone                       (* the select Start is at takes its case <-ctx.Done() *)
  | EvRecvRte                       (* the select Start is at takes its case <-rte *)
  | EvRecvSig                       (* the select Start is at takes its case <-osSig *)
  | EvShutdownCall (e : error)      (* some goroutine calls Shutdown(e) *)
  | EvSignal (sig : Signal).        (* os/signal passes a signal on to osSig *)

#[global] Instance event_eq_dec : EqDecision event.
Proof. solve_decision. Defined.

(** [fnErrs := make(chan error, 1)] *)
Definition fnErrsCap : nat := 1.
(** [osSig := make(chan os.Signal, 1)] *)
Definition osSigCap : nat := 1.

(** [ctx, cancel := context.Background(), nop; if timeout > 0 { ctx, cancel =
    context.WithTimeout(ctx, timeout) }] *)
Definition newCtx (timeout : Z) : context :=
  if 0 <? timeout then WithTimeout None else Background.

Section Orchestrator.

(** [len(startupFns)], [len(shutdownFns)] and the configuration that
    [parseOptions] left. *)
Variables (nStartup nShutdown : nat) (cfg : config).

(** Leaving Start by its last [return er], which runs the deferred
    [sdCancel()]. *)
Definition return_er (s : state) : state :=
  set_pc MReturned (set_sdCtx (cancel (sdCtx s)) s).

(** The head of [for range shutdownFns] after [i] iterations. *)
Definition collect_head (i : nat) (s : state) : state :=
  if (i <? nShutdown)%nat then set_pc (MCollect i) s else return_er s.

(** From the first select to the second: [er.ErrStartup] holds [e];
    [stCancel()]; [if er.ErrStartup != nil { return er }];
    [signal.Notify(osSig, config.signals...)]. *)
Definition after_startup (e : error) (s : state) : state :=
  let s := set_stCtx (cancel (stCtx s)) (set_er (set_ErrStartup e (er s)) s) in
  if is_nil e then set_pc MTrigger (set_notified true s) else set_pc MReturned s.

(** From the second select into the Shutdown loop: the context of the
    shutdown, the goroutine, and the head of the loop. *)
Definition begin_shutdown (s : state) : state :=
  collect_head 0 (set_sdW (DWLoop 0) (set_sdCtx (newCtx (shutdownTimeout cfg)) s)).

(** One event.  A goroutine event is refused when the goroutine is not at
    a statement it could run: a send when the buffer is full, a receive when
    it is empty, a Done case when the context is not done. *)
Definition step (ev : event) (s : state) : option state :=
  match ev with
  | EvStartupNext =>
    match stW s with
    | SWLoop i =>
      if (i <? nStartup)%nat then Some (set_stW (SWCall i) (log_st (Invoke i) s))
      else Some (set_stW SWSendNil s)
    | SWSendErr i x =>
      buf ← Chan.send fnErrsCap (Some x) (fnErrs s);
      Some (set_stW (SWCancel i x) (set_fnErrs buf s))
    | SWCancel i x => Some (set_stW (SWReturned i x) (set_stCtx (cancel (stCtx s)) s))
    | SWSendNil =>
      buf ← Chan.send fnErrsCap None (fnErrs s);
      Some (set_stW SWEnd (set_fnErrs buf s))
    | SWNone | SWCall _ | SWReturned _ _ | SWEnd => None
    end
  | EvStartupReturn e =>
    match stW s with
    | SWCall i =>
      let s := log_st (Return i e) s in
      match e with
      | Some x => Some (set_stW (SWSendErr i x) s)
      | None => Some (set_stW (SWLoop (S i)) s)
      end
    | _ => None
    end
  | EvStartupDeadline =>
    match stCtx s with
    | WithTimeout _ => Some (set_stCtx (expire (stCtx s)) s)
    | Background => None
    end
  | EvShutdownNext =>
    match sdW s with
    | DWLoop i =>
      if (i <? nShutdown)%nat then Some (set_sdW (DWCall i) (log_sd (Invoke i) s))
      else Some (set_sdW DWEnd s)
    | DWSend i e =>
      buf ← Chan.send fnErrsCap e (fnErrs s);
      Some (set_sdW (DWLoop (S i)) (set_fnErrs buf s))
    | DWNone | DWCall _ | DWEnd => None
    end
  | EvShutdownReturn e =>
    match sdW s with
    | DWCall i => Some (set_sdW (DWSend i e) (log_sd (Return i e) s))
    | _ => None
    end
  | EvShutdownDeadline =>
    match sdCtx s with
    | WithTimeout _ => Some (set_sdCtx (expire (sdCtx s)) s)
    | Background => None
    end
  | EvRecvFnErrs =>
    match pc s with
    | MStartupSelect =>
      '(e, buf) ← Chan.recv (fnErrs s);
      Some (after_startup e (set_fnErrs buf s))
    | MCollect i =>
      '(e, buf) ← Chan.recv (fnErrs s);
      let s := log_rx e (set_fnErrs buf s) in
      let s := if is_nil e then s else set_er (append_ErrsShutdown e (er s)) s in
      Some (collect_head (S i) s)
    | _ => None
    end
  | EvCtxDone =>
    match pc s with
    | MStartupSelect =>
      if is_nil (ctxErr (stCtx s)) then None
      else Some (after_startup (ctxErr (stCtx s)) s)
    | MCollect i =>
      if is_nil (ctxErr (sdCtx s)) then None
      else Some (return_er (set_er (append_ErrsShutdown (ctxErr (sdCtx s)) (er s)) s))
    | _ => None
    end
  | EvRecvRte =>
    match pc s with
    | MTrigger =>
      '(e, buf) ← Chan.recv (rte s);
      Some (begin_shutdown (set_er (set_ErrRuntime e (er s)) (set_rte buf s)))
    | _ => None
    end
  | EvRecvSig =>
    match pc s with
    | MTrigger =>
      '(sig, buf) ← Chan.recv (osSig s);
      Some (begin_shutdown (set_er (set_OsSignal (Some sig) (er s)) (set_osSig buf s)))
    | _ => None
    end
  | EvShutdownCall e => Some (set_rte (Shutdown e (rte s)) s)
  | EvSignal sig =>
    if notified s && bool_decide (sig ∈ signals cfg)
    then Some (set_osSig (Chan.try_send osSigCap sig (osSig s)) s)
    else None
  end.

(** A schedule is run from left to right; it is refused ([None]) when one
    of its events cannot take place. *)
Fixpoint exec (evs : list event) (s : state) : option state :=
  match evs with
  | [] => Some s
  | ev :: evs' => s' ← step ev s; exec evs' s'
  end.

End Orchestrator.

(** The state Start is in once it has parsed its options and, when they are
    valid, launched the startup goroutine.  [rte0] is what the package-level
    channel holds when Start is called. *)
Definition Start_init (opts : list option_) (rte0 : list error) : config * state :=
  match parseOptions defaultConfig opts with
  | (cfg, Some e) =>
    (cfg, mkState MReturned (set_ErrStartup (Some e) emptyExitReason) [] rte0 [] false
                  Background Background SWNone DWNone [] [] [])
  | (cfg, None) =>
    (cfg, mkState MStartupSelect emptyExitReason [] rte0 [] false
                  (newCtx (startupTimeout cfg)) Background (SWLoop 0) DWNone [] [] [])
  end.

(** [Start(startupFns, shutdownFns, opts...)] under a schedule. *)
Definition Start (nStartup nShutdown : nat) (opts : list option_) (rte0 : list error)
    (evs : list event) : option state :=
  exec nStartup nShutdown (Start_init opts rte0).1 evs (Start_init opts rte0).2.

(** The value Start has returned, if it has. *)
Definition result (s : state) : option ExitReason :=
  match pc s with MReturned => Some (er s) | _ => None end.

(** ** Multi *)

(** One of the goroutines [go func(f Func) { errCh <- f(ctx) }(fn)]. *)
Inductive multi_worker : Type :=
  | MWCall                          (* f(ctx) is running *)
  | MWSend (e : error)              (* errCh <- the value f(ctx) returned *)
  | MWEnd.

#[global] Instance multi_worker_eq_dec : EqDecision multi_worker.
Proof. solve_decision. Defined.

(** The goroutine that called the function Multi returned. *)
Inductive multi_pc : Type :=
  | MuSelect (i : nat) (err : error)  (* the select of [for range len(fns)], i iterations done *)
  | MuReturned (r : error).           (* returned r *)

Record multi_state : Type := mkMulti {
  mpc : multi_pc;
  mctx : error;                     (* ctx.Err(); ctx.Done() is closed when it is non-nil *)
  workers : list multi_worker;      (* one goroutine per function, by position *)
  errCh : list error;               (* make(chan error, len(fns)) *)
  (* history, for the statements only *)
  reported : list (nat * error);    (* the sends on errCh, in the order they completed *)
  received : list error             (* the values the loop received from errCh *)
}.

Inductive multi_event : Type :=
  | MEvReturn (j : nat) (e : error) (* fns[j](ctx) returns e *)
  | MEvSend (j : nat)               (* goroutine j completes its send on errCh *)
  | MEvCancel (why : err)           (* ctx is cancelled, or its deadline passes *)
  | MEvRecv                         (* the select takes its case e := <-errCh *)
  | MEvDone.                        (* the select takes its case <-ctx.Done() *)

#[global] Instance multi_event_eq_dec : EqDecision multi_event.
Proof. solve_decision. Defined.

(** The head of [for range len(fns)] after [i] iterations, with [err] the
    error stored so far; [return err] follows the loop. *)
Definition multi_head (K i : nat) (err : error) : multi_pc :=
  if (i <? K)%nat then MuSelect i err else MuReturned err.

(** [if err == nil && e != nil { err = e }] *)
Definition keep_first (err e : error) : error :=
  if is_nil err && negb (is_nil e) then e else err.

(** The function returned by [Multi(fns...)], called with a context whose
    [Err()] is [ctx0], once its [go] statements have run: they do not
    block, and a goroutine that has not been scheduled yet cannot be told
    from one whose function has not returned yet. *)
Definition Multi_init (K : nat) (ctx0 : error) : multi_state :=
  mkMulti (multi_head K 0 None) ctx0 (replicate K MWCall) [] [] [].

Definition multi_step (ev : multi_event) (s : multi_state) : option multi_state :=
  match ev with
  | MEvReturn j e =>
    match workers s !! j with
    | Some MWCall =>
      Some (mkMulti (mpc s) (mctx s) (<[j := MWSend e]> (workers s)) (errCh s)
                    (reported s) (received s))
    | _ => None
    end
  | MEvSend j =>
    match workers s !! j with
    | Some (MWSend e) =>
      buf ← Chan.send (length (workers s)) e (errCh s);
      Some (mkMulti (mpc s) (mctx s) (<[j := MWEnd]> (workers s)) buf
                    (reported s ++ [(j, e)]) (received s))
    | _ => None
    end
  | MEvCancel why =>
    Some (mkMulti (mpc s) (if is_nil (mctx s) then Some why else mctx s) (workers s)
                  (errCh s) (reported s) (received s))
  | MEvRecv =>
    match mpc s with
    | MuSelect i err =>
      '(e, buf) ← Chan.recv (errCh s);
      Some (mkMulti (multi_head (length (workers s)) (S i) (keep_first err e)) (mctx s)
                    (workers s) buf (reported s) (received s ++ [e]))
    | MuReturned _ => None
    end
  | MEvDone =>
    match mpc s with
    | MuSelect i err =>
      if is_nil (mctx s) then None
      else Some (mkMulti (MuReturned (mctx s)) (mctx s) (workers s) (errCh s)
                         (reported s) (received s))
    | MuReturned _ => None
    end
  end.

Fixpoint multi_exec (evs : list multi_event) (s : multi_state) : option multi_state :=
  match evs with
  | [] => Some s
  | ev :: evs' => s' ← multi_step ev s; multi_exec evs' s'
  end.

(** [Multi(fns...)(ctx)] with [K = len(fns)], under a schedule. *)
Definition Multi (K : nat) (ctx0 : error) (evs : list multi_event) : option multi_state :=
  multi_exec evs (Multi_init K ctx0).

(** The value the composed function has returned, if it has. *)
Definition multi_result (s : multi_state) : option error :=
  match mpc s with MuReturned r => Some r | MuSelect _ _ => None end.

(** The first non-nil error of a list of reports. *)
Fixpoint first_nonnil (es : list error) : error :=
  match es with
  | [] => None
  | Some x :: _ => Some x
  | None :: es' => first_nonnil es'
  end.

(** ** Histories and invariants *)

(** The history of a goroutine that has called the functions at positions
    [k, k+1, ...] one after the other, each returning before the next is
    called, with results [rs]. *)
Fixpoint calls_done (k : nat) (rs : list error) : list call_event :=
  match rs with
  | [] => []
  | r :: rs' => Invoke k :: Return k r :: calls_done (S k) rs'
  end.

#[global] Arguments calls_done : simpl never.

(** The reports that are appended to [er.ErrsShutdown]: the non-nil ones. *)
Definition nonnil (es : list error) : list error := filter (λ e : error, e ≠ None) es.

(** The function at position [i] has been called and has not returned. *)
Definition running (l : list call_event) (i : nat) : Prop :=
  Invoke i ∈ l ∧ ∀ e, Return i e ∉ l.

(** The calls of the startup functions, read off the program counter of
    the startup goroutine. *)
Definition st_shape (N : nat) (w : startup_pc) : list call_event :=
  match w with
  | SWNone => []
  | SWLoop i => calls_done 0 (replicate i None)
  | SWCall i => calls_done 0 (replicate i None) ++ [Invoke i]
  | SWSendErr i x | SWCancel i x | SWReturned i x =>
    calls_done 0 (replicate i None) ++ [Invoke i; Return i (Some x)]
  | SWSendNil | SWEnd => calls_done 0 (replicate N None)
  end.

Definition st_bound (N : nat) (w : startup_pc) : Prop :=
  match w with
  | SWLoop i => (i ≤ N)%nat
  | SWCall i | SWSendErr i _ | SWCancel i _ | SWReturned i _ => (i < N)%nat
  | SWNone | SWSendNil | SWEnd => True
  end.

(** What the startup goroutine has sent on [fnErrs]. *)
Definition st_sent (w : startup_pc) : list error :=
  match w with
  | SWCancel _ x | SWReturned _ x => [Some x]
  | SWEnd => [None]
  | _ => []
  end.

(** The calls of the shutdown functions, read off the program counter of
    the shutdown goroutine and the values [rs] it has sent. *)
Definition sd_shape (rs : list error) (w : shutdown_pc) : list call_event :=
  match w with
  | DWNone => []
  | DWLoop _ | DWEnd => calls_done 0 rs
  | DWCall i => calls_done 0 rs ++ [Invoke i]
  | DWSend _ e => calls_done 0 (rs ++ [e])
  end.

Definition sd_bound (M : nat) (rs : list error) (w : shutdown_pc) : Prop :=
  match w with
  | DWNone => True
  | DWLoop i => length rs = i ∧ (i ≤ M)%nat
  | DWCall i | DWSend i _ => length rs = i ∧ (i < M)%nat
  | DWEnd => length rs = M
  end.

(** Startup succeeded and at most one trigger is recorded. *)
Definition trigger_ok (r : ExitReason) : Prop :=
  ErrStartup r = None ∧ (OsSignal r = None ∨ ErrRuntime r = None).

(** What holds at each program point of Start. *)
Definition main_ok (M : nat) (s : state) : Prop :=
  match pc s with
  | MStartupSelect =>
    er s = emptyExitReason ∧ sdW s = DWNone ∧ rxLog s = [] ∧
    stW s ≠ SWNone ∧ fnErrs s = st_sent (stW s)
  | MTrigger =>
    er s = emptyExitReason ∧ sdW s = DWNone ∧ rxLog s = [] ∧
    stW s = SWEnd ∧ fnErrs s = []
  | MCollect i =>
    trigger_ok (er s) ∧ stW s = SWEnd ∧ sdW s ≠ DWNone ∧
    length (rxLog s) = i ∧ (i < M)%nat ∧
    ErrsShutdown (er s) = nonnil (rxLog s) ∧
    (ctxErr (sdCtx s) = None ∨ ctxErr (sdCtx s) = Some DeadlineExceeded)
  | MReturned =>
    (∃ x, er s = set_ErrStartup (Some x) emptyExitReason ∧
          sdW s = DWNone ∧ rxLog s = [] ∧
          (stW s = SWNone ∨
           ctxErr (stCtx s) = Some x ∨
           (st_sent (stW s) = [Some x] ∧ fnErrs s = [])))
    ∨
    (trigger_ok (er s) ∧ stW s = SWEnd ∧ sdW s ≠ DWNone ∧
     ((length (rxLog s) = M ∧ ErrsShutdown (er s) = nonnil (rxLog s)) ∨
      ((length (rxLog s) < M)%nat ∧
       ErrsShutdown (er s) = nonnil (rxLog s) ++ [Some DeadlineExceeded] ∧
       ctxErr (sdCtx s) = Some DeadlineExceeded)))
  end.

Record Inv (N M : nat) (cfg : config) (s : state) : Prop := mkInv {
  inv_stLog : stLog s = st_shape N (stW s);
  inv_stBound : st_bound N (stW s);
  inv_sdLog : sdLog s = sd_shape (rxLog s ++ fnErrs s) (sdW s);
  inv_sdBound : sd_bound M (rxLog s ++ fnErrs s) (sdW s);
  inv_stCtx : stCtx s = Background ∨ (0 < startupTimeout cfg)%Z;
  inv_main : main_ok M s
}.

(** States that no schedule leaves: Start has returned without launching a
    goroutine. *)
Definition never_started (r : ExitReason) (s : state) : Prop :=
  pc s = MReturned ∧ er s = r ∧ stW s = SWNone ∧ sdW s = DWNone ∧
  stLog s = [] ∧ sdLog s = [] ∧ stCtx s = Background ∧ sdCtx s = Background.

(** The goroutines of Multi that have completed their send. *)
Definition ended (ws : list multi_worker) : nat :=
  length (filter (λ w, w = MWEnd) ws).

Record MInv (K : nat) (s : multi_state) : Prop := mkMInv {
  minv_workers : length (workers s) = K;
  minv_reported : (snd <$> reported s) = received s ++ errCh s;
  minv_ended : length (reported s) = ended (workers s);
  minv_main :
    match mpc s with
    | MuSelect i err =>
      (i < K)%nat ∧ length (received s) = i ∧ err = first_nonnil (received s)
    | MuReturned r =>
      (mctx s ≠ None ∧ r = mctx s ∧ (length (received s) < K)%nat) ∨
      (length (received s) = K ∧ r = first_nonnil (received s))
    end
}.

(** ** The invariant of the ExitReason, as the specification words it and
    as the code keeps it *)





(** ** Configuration errors *)

Definition validation_error (e : err) : Prop :=
  e = ErrString "startup timeout must be positive" ∨
  e = ErrString "shutdown timeout must be positive".

Definition type_error (e : err) : Prop :=
  e = ErrString "failed to cast StartupTimeout to time.Duration".

Definition timeout_option (opt : option_) : Prop :=
  code opt = optionStartupTimeout ∨ code opt = optionShutdownTimeout.

(** ** Sequences of Shutdown calls *)

Definition Shutdowns (es : list error) (rte : list error) : list error :=
  foldl (λ buf e, Shutdown e buf) rte es.

(** ** What parseOptions accepts and what it leaves in the configuration *)

(** The payload of an option that parseOptions stores as it is: a duration
    of at least one nanosecond for the two timeouts, a list of signals for
    the signals; an option with any other code is skipped. *)
Definition option_ok (opt : option_) : bool :=
  if code opt =? optionStartupTimeout then
    match value opt with VDuration d => 1 <=? d | _ => false end
  else if code opt =? optionShutdownTimeout then
    match value opt with VDuration d => 1 <=? d | _ => false end
  else if code opt =? optionSignals then
    match value opt with VSignals _ => true | _ => false end
  else true.

(** The durations carried by the options of code [c], in the order given. *)
Definition durations_of (c : Z) (opts : list option_) : list Z :=
  omap (λ opt, if code opt =? c
               then match value opt with VDuration d => Some d | _ => None end
               else None) opts.

(** The signal lists carried by the signals options, in the order given. *)
Definition signal_lists (opts : list option_) : list (list Signal) :=
  omap (λ opt, if code opt =? optionSignals
               then match value opt with VSignals l => Some l | _ => None end
               else None) opts.

(** ** Schedules as histories *)

(** The signals that are passed on to [osSig], in the order in which they
    are passed on. *)
Definition signals_of (evs : list event) : list Signal :=
  omap (λ ev, match ev with EvSignal sig => Some sig | _ => None end) evs.

(** The errors the schedule passes to Shutdown, in order. *)
Definition requests_of (evs : list event) : list error :=
  omap (λ ev, match ev with EvShutdownCall e => Some e | _ => None end) evs.

(** Start has not left its second select. *)
Definition before_trigger (p : main_pc) : bool :=
  match p with MStartupSelect | MTrigger => true | MCollect _ | MReturned => false end.

(** The startup goroutine is at a statement of its own: it is neither
    inside a startup function nor finished. *)
Definition startup_at_statement (w : startup_pc) : bool :=
  match w with
  | SWLoop _ | SWSendErr _ _ | SWCancel _ _ | SWSendNil => true
  | SWNone | SWCall _ | SWReturned _ _ | SWEnd => false
  end.

(** What the channels of Start hold, and where its errors come from. *)
Record Wiring (cfg : config) (s : state) : Prop := mkWiring {
  wir_cap : (length (fnErrs s) ≤ 1)%nat;
  wir_sent : sdW s = DWNone → fnErrs s = [] ∨ fnErrs s = st_sent (stW s);
  wir_started : stW s ≠ SWNone;
  wir_osSig : Forall (λ sig, sig ∈ signals cfg) (osSig s);
  wir_OsSignal : ∀ sig, OsSignal (er s) = Some sig → sig ∈ signals cfg;
  wir_notified : pc s ≠ MStartupSelect → ErrStartup (er s) = None → notified s = true;
  wir_ctxErr : ∀ m, ctxErr (stCtx s) ≠ Some (ErrString m);
  wir_sdCtx : sdCtx s = Background ∨ 0 < shutdownTimeout cfg;
  wir_canceled :
    ErrStartup (er s) = Some Canceled ∨
    (pc s = MStartupSelect ∧ ctxErr (stCtx s) = Some Canceled) →
    ∃ i y, Return i (Some y) ∈ stLog s
}.

(** ** Start returns when nothing goes wrong *)

(** The events of a run in which nothing fails and no deadline passes: the
    goroutines run, the functions return nil, Shutdown is called with nil,
    Start receives from [fnErrs] and [rte]. *)
Definition quiet (ev : event) : bool :=
  match ev with
  | EvStartupNext | EvStartupReturn None | EvShutdownNext | EvShutdownReturn None
  | EvRecvFnErrs | EvRecvRte | EvShutdownCall None => true
  | _ => false
  end.

(** The events the startup goroutine has left before its report is in
    [fnErrs], when the startup functions return nil. *)
Definition startup_fuel (N : nat) (w : startup_pc) : nat :=
  match w with
  | SWLoop i => 2 * (N - i) + 2
  | SWCall i => 2 * (N - i) + 1
  | SWSendErr _ _ | SWSendNil => 1
  | SWNone | SWCancel _ _ | SWReturned _ _ | SWEnd => 0
  end.

(** The events the shutdown goroutine has left before its next report is
    in [fnErrs]. *)
Definition shutdown_fuel (w : shutdown_pc) : nat :=
  match w with
  | DWLoop _ => 3
  | DWCall _ => 2
  | DWSend _ _ => 1
  | DWNone | DWEnd => 0
  end.

(** A quiet schedule that Start accepts from [s] and that leads to a state
    that satisfies [P]. *)
Definition leads_to (N M : nat) (cfg : config) (s : state) (P : state → Prop) : Prop :=
  ∃ evs s', forallb quiet evs = true ∧ exec N M cfg evs s = Some s' ∧ P s'.

(** ** Concrete runs *)

Definition boom : err := ErrString "boom".
Definition second : Z := 1000000000.

(** No startup function; then a request [Shutdown(nil)]. *)
Definition run_to_trigger : list event :=
  [EvStartupNext; EvStartupNext; EvRecvFnErrs; EvShutdownCall None; EvRecvRte].

(** The first of two startup functions fails and Start receives the report. *)
Definition run_startup_fails : list event :=
  [EvStartupNext; EvStartupReturn (Some boom); EvStartupNext; EvRecvFnErrs].

(** The first of two startup functions fails and its report is in the
    channel when the deadline of the startup context passes; the select
    takes the Done case. *)
Definition run_startup_fails_at_deadline : list event :=
  [EvStartupNext; EvStartupReturn (Some boom); EvStartupNext; EvStartupDeadline; EvCtxDone].

(** The first of two startup functions fails; the startup goroutine sends
    the report and cancels the startup context before Start reaches its
    select, which takes the Done case. *)
Definition run_startup_fails_cancel_first : list event :=
  [EvStartupNext; EvStartupReturn (Some boom); EvStartupNext; EvStartupNext; EvCtxDone].

(** Two shutdown functions; the first fails, the second succeeds. *)
Definition run_shutdown_two : list event :=
  run_to_trigger ++
  [EvShutdownNext; EvShutdownReturn (Some boom); EvShutdownNext; EvRecvFnErrs;
   EvShutdownNext; EvShutdownReturn None; EvShutdownNext; EvRecvFnErrs].

(** Two shutdown functions; the first one is running. *)
Definition run_shutdown_first_running : list event :=
  run_to_trigger ++ [EvShutdownNext].

(** Two shutdown functions; the first fails, the second is still running
    when the deadline of the shutdown context passes. *)
Definition run_shutdown_deadline : list event :=
  run_to_trigger ++
  [EvShutdownNext; EvShutdownReturn (Some boom); EvShutdownNext; EvRecvFnErrs;
   EvShutdownNext; EvShutdownDeadline].

(** Three functions under Multi: the third reports nil, the first reports
    an error, the second reports nil, and the three reports are received. *)
Definition run_multi_one_fails : list multi_event :=
  [MEvReturn 2 None; MEvSend 2; MEvRecv; MEvReturn 0 (Some boom); MEvReturn 1 None;
   MEvSend 0; MEvSend 1; MEvRecv; MEvRecv].

(** Two functions under Multi that never return; the context is cancelled. *)
Definition run_multi_stalled : list multi_event :=
  [MEvCancel Canceled; MEvDone].

(** Startup succeeds with no startup function; SIGTERM then SIGINT are
    passed on to [osSig] and Start takes the signal. *)
Definition run_two_signals : list event :=
  [EvStartupNext; EvStartupNext; EvRecvFnErrs; EvSignal SIGTERM; EvSignal SIGINT; EvRecvSig].

(** Shutdown is called with an error before the startup goroutine has run,
    and with nil once Start waits for a trigger. *)
Definition run_early_request : list event :=
  [EvShutdownCall (Some boom); EvStartupNext; EvStartupNext; EvRecvFnErrs;
   EvShutdownCall None; EvRecvRte].

(** Startup succeeds with no startup function and Start waits for a
    trigger. *)
Definition run_to_monitoring : list event :=
  [EvStartupNext; EvStartupNext; EvRecvFnErrs].

(** Three shutdown functions; the deadline of the shutdown context passes
    while the first is running and Start returns; the first then returns nil
    and its report is stored, the second returns an error and finds the
    channel full. *)
Definition run_shutdown_abandoned : list event :=
  run_to_trigger ++
  [EvShutdownNext; EvShutdownDeadline; EvCtxDone; EvShutdownReturn None;
   EvShutdownNext; EvShutdownNext; EvShutdownReturn (Some boom)].

(** The first of two startup functions is running when the deadline of the
    startup context passes and Start returns; the function then returns an
    error. *)
Definition run_startup_abandoned : list event :=
  [EvStartupNext; EvStartupDeadline; EvCtxDone; EvStartupReturn (Some boom)].

(** Two functions under Multi; the context is cancelled and the composed
    function returns; the first function then returns nil. *)
Definition run_multi_abandoned : list multi_event :=
  [MEvCancel Canceled; MEvDone; MEvReturn 0 None].

(** Two shutdown functions; the first fails and its report is on the
    channel, not received yet, when the deadline of the shutdown context
    passes; the select takes the Done case. *)
Definition run_shutdown_report_lost : list event :=
  run_to_trigger ++
  [EvShutdownNext; EvShutdownReturn (Some boom); EvShutdownNext; EvShutdownDeadline;
   EvCtxDone].

Definition late : err := ErrString "late".

(** After [run_shutdown_deadline] the second function fails too, before
    Start has selected, and the select takes its report. *)
Definition run_shutdown_late_report : list event :=
  run_shutdown_deadline ++ [EvShutdownReturn (Some late); EvShutdownNext; EvRecvFnErrs].


(** * Proofs *)

(** ** Histories, contexts and channels *)

Lemma calls_done_snoc k rs e :
  calls_done k (rs ++ [e]) =
  calls_done k rs ++ [Invoke (k + length rs); Return (k + length rs) e].
Proof.
  revert k; induction rs as [|r rs IH]; intros k.
  - change (length (@nil error)) with 0%nat. by rewrite Nat.add_0_r.
  - change (calls_done k ((r :: rs) ++ [e]))
      with (Invoke k :: Return k r :: calls_done (S k) (rs ++ [e])).
    rewrite IH. change (length (r :: rs)) with (S (length rs)).
    by rewrite Nat.add_succ_r.
Qed.

Lemma calls_done_nil_S i :
  calls_done 0 (replicate (S i) None) =
  calls_done 0 (replicate i None) ++ [Invoke i; Return i None].
Proof. by rewrite replicate_S_end, calls_done_snoc, length_replicate. Qed.

Lemma calls_done_nil_cons i :
  calls_done 0 (None :: replicate i None) =
  calls_done 0 (replicate i None) ++ [Invoke i; Return i None].
Proof. apply (calls_done_nil_S i). Qed.

Lemma nonnil_snoc_nil es : nonnil (es ++ [None]) = nonnil es.
Proof.
  unfold nonnil. rewrite filter_app, filter_cons_False by (by intros []).
  by rewrite filter_nil, app_nil_r.
Qed.

Lemma nonnil_snoc_some es x : nonnil (es ++ [Some x]) = nonnil es ++ [Some x].
Proof. unfold nonnil. rewrite filter_app. by rewrite filter_cons_True. Qed.

Lemma finish_Background why c : c = Background → finish why c = Background.
Proof. by intros ->. Qed.

Lemma finish_done why c x : ctxErr c = Some x → finish why c = c.
Proof. unfold finish. destruct c as [|[]]; simpl; congruence. Qed.

Lemma finish_open why e :
  ctxErr (finish why (WithTimeout e)) = Some (default why e).
Proof. by destruct e. Qed.

Lemma newCtx_open t : ctxErr (newCtx t) = None.
Proof. unfold newCtx. by case_match. Qed.

Lemma send_Some {A} c (x : A) buf buf' :
  Chan.send c x buf = Some buf' → buf' = buf ++ [x] ∧ (length buf < c)%nat.
Proof.
  unfold Chan.send. destruct (length buf <? c)%nat eqn:Hlt; intros [= <-].
  split; [done|]. by apply Nat.ltb_lt.
Qed.

Lemma recv_Some {A} (x : A) buf buf' :
  Chan.recv buf = Some (x, buf') → buf = x :: buf'.
Proof. destruct buf; simpl; intros [=]; by subst. Qed.

Lemma st_sent_Some w x l : st_sent w = Some x :: l → l = [] ∧ st_sent w = [Some x].
Proof. destruct w; simpl; intros [=]; by subst. Qed.

Lemma st_sent_None w l : st_sent w = None :: l → l = [] ∧ w = SWEnd.
Proof. destruct w; simpl; intros [=]; by subst. Qed.

(** ** The invariant holds when Start begins *)

Lemma Inv_init N M opts rte0 :
  Inv N M (Start_init opts rte0).1 (Start_init opts rte0).2.
Proof.
  unfold Start_init. destruct (parseOptions defaultConfig opts) as [cfg [e|]]; simpl.
  - split; simpl; try done; [by left |].
    left. exists e. eauto.
  - split; simpl; try done; [lia |].
    unfold newCtx. case_match; [right; lia | by left].
Qed.

(** ** Every step of Start keeps the invariant *)

(** Breaks the hypotheses a step leaves: conjunctions, the results of
    channel operations and of comparisons. *)
Ltac inv_break :=
  repeat match goal with
  | H : _ ∧ _ |- _ => destruct H as [? ?]
  | H : ∃ _, _ |- _ => destruct H as [? ?]
  | H : (_ ≫= _) = Some _ |- _ => apply bind_Some in H; destruct H as (? & ? & H)
  | H : Chan.send _ _ _ = Some _ |- _ => apply send_Some in H
  | H : Chan.recv _ = Some (_, _) |- _ => apply recv_Some in H
  | H : Some _ = Some _ |- _ => apply (inj Some) in H
  | H : (_ <? _)%nat = true |- _ => apply Nat.ltb_lt in H
  | H : (_ <? _)%nat = false |- _ => apply Nat.ltb_ge in H
  | p : _ * _ |- _ => destruct p
  | H : ?a = ?b |- _ => first [is_var a | is_var b]; subst
  end.

(** Closes a goal of propositional shape from the hypotheses. *)
Ltac inv_auto :=
  let fin := (try done; try congruence; eauto 10 with lia) in
  solve [ intuition fin
        | left; eexists; intuition fin
        | right; intuition fin ].

(** Cases on the program point of Start in [main_ok]. *)
Ltac main_cases :=
  unfold main_ok, trigger_ok in *; simpl in *;
  match goal with
  | H : context [match pc ?s with _ => _ end] |- _ => destruct (pc s); simpl in *
  end.

(** Normal form of histories built by appending at the end. *)
Ltac list_norm :=
  rewrite ?app_assoc in *;
  rewrite ?calls_done_nil_cons, ?calls_done_nil_S, ?calls_done_snoc,
    ?nonnil_snoc_nil, ?nonnil_snoc_some in *;
  rewrite ?length_app in *; rewrite <- ?app_assoc in *; simpl in *.

Lemma main_ok_no_shutdown M s :
  main_ok M s → stW s ≠ SWEnd → sdW s = DWNone.
Proof.
  unfold main_ok. destruct (pc s); intros H Hne.
  - apply H.
  - by destruct Hne; apply H.
  - by destruct Hne; apply H.
  - destruct H as [(x & _ & H & _)|(_ & H & _)]; [done | by destruct Hne].
Qed.

(** While the startup goroutine is at [Hw], there is no shutdown goroutine. *)
Ltac no_shutdown Hmain Hw :=
  let H := fresh "Hsd" in
  pose proof (main_ok_no_shutdown _ _ Hmain) as H;
  rewrite Hw in H; specialize (H ltac:(discriminate)).

(** Cancelling or expiring [context.Background()] does nothing. *)
Ltac ctx_norm :=
  try unfold cancel in *; try unfold expire in *;
  repeat match goal with
  | H : ?c = Background |- context [finish _ ?c] => rewrite (finish_Background _ c H)
  end.

(** The field [inv_stCtx] after a step. *)
Ltac ctx_field :=
  match goal with
  | HK : _ = Background ∨ _ |- _ = Background ∨ _ =>
    try unfold cancel; try unfold expire;
    let H' := fresh in
    pose proof HK as H'; destruct H' as [H'|H']; [left; by rewrite H' | by right]
  end.

(** [main_ok] after a step that left the program point of Start alone;
    [Hw] is the equation for the component the step read. *)
Ltac main_solve Hw :=
  main_cases; rewrite ?Hw in *; simpl in *;
  ctx_norm;
  repeat match goal with
  | H : _ ∧ _ |- _ => destruct H as [? ?]
  | H : ∃ _, _ |- _ => destruct H as [? ?]
  | H : _ ∨ _ |- _ => destruct H as [?|?]
  end;
  repeat match goal with
  | H : ctxErr ?c = Some _ |- context [finish _ ?c] => rewrite (finish_done _ _ _ H) in *
  | |- context [ctxErr (finish ?w (WithTimeout ?e))] => rewrite (finish_open w e)
  | H : ?a = _ |- context [?a] => rewrite H
  end; simpl; list_norm;
  try done; try lia; try solve [inv_auto].

(** One field of [Inv] after a step. *)
Ltac field_solve Hw :=
  simpl;
  first
  [ assumption
  | done
  | lia
  | ctx_field
  | match goal with
    | H : sdW _ = DWNone |- _ => by rewrite H in *
    | H : stLog _ = _ |- stLog _ ++ _ = _ =>
      rewrite H; list_norm; solve [done | repeat f_equal; lia]
    | H : sdLog _ = _ |- sdLog _ ++ _ = _ =>
      rewrite H; list_norm; solve [done | repeat f_equal; lia]
    | H : stLog _ = _ |- stLog _ = _ =>
      rewrite H; list_norm; solve [done | repeat f_equal; lia]
    | H : sdLog _ = _ |- sdLog _ = _ =>
      rewrite H; list_norm; solve [done | repeat f_equal; lia]
    end
  | solve [list_norm; simpl in *; first [done | lia | inv_auto]]
  | solve [main_solve Hw] ].

Ltac inv_fields Hw := inv_break; split; field_solve Hw.

Lemma Inv_step_StartupNext N M cfg s s' :
  Inv N M cfg s → step N M cfg EvStartupNext s = Some s' → Inv N M cfg s'.
Proof.
  intros [HstL HstB HsdL HsdB HK Hmain] Hstep. simpl in Hstep.
  destruct (stW s) eqn:Hw; try discriminate; simpl in *.
  - destruct (i <? N)%nat eqn:Hi; inv_fields Hw.
  - no_shutdown Hmain Hw. inv_fields Hw.
  - no_shutdown Hmain Hw. inv_fields Hw.
  - no_shutdown Hmain Hw. inv_fields Hw.
Qed.

Lemma Inv_step_StartupReturn N M cfg s s' e :
  Inv N M cfg s → step N M cfg (EvStartupReturn e) s = Some s' → Inv N M cfg s'.
Proof.
  intros [HstL HstB HsdL HsdB HK Hmain] Hstep. simpl in Hstep.
  destruct (stW s) eqn:Hw; try discriminate; simpl in *.
  destruct e; inv_fields Hw.
Qed.

Lemma Inv_step_StartupDeadline N M cfg s s' :
  Inv N M cfg s → step N M cfg EvStartupDeadline s = Some s' → Inv N M cfg s'.
Proof.
  intros [HstL HstB HsdL HsdB HK Hmain] Hstep. simpl in Hstep.
  destruct (stCtx s) eqn:Hk; try discriminate; simpl in *.
  inv_fields Hk.
Qed.

Lemma Inv_step_ShutdownNext N M cfg s s' :
  Inv N M cfg s → step N M cfg EvShutdownNext s = Some s' → Inv N M cfg s'.
Proof.
  intros [HstL HstB HsdL HsdB HK Hmain] Hstep. simpl in Hstep.
  destruct (sdW s) eqn:Hw; try discriminate; simpl in *.
  - destruct (i <? M)%nat eqn:Hi; inv_fields Hw.
  - inv_fields Hw.
Qed.

Lemma Inv_step_ShutdownReturn N M cfg s s' e :
  Inv N M cfg s → step N M cfg (EvShutdownReturn e) s = Some s' → Inv N M cfg s'.
Proof.
  intros [HstL HstB HsdL HsdB HK Hmain] Hstep. simpl in Hstep.
  destruct (sdW s) eqn:Hw; try discriminate; simpl in *.
  inv_fields Hw.
Qed.

Lemma Inv_step_ShutdownDeadline N M cfg s s' :
  Inv N M cfg s → step N M cfg EvShutdownDeadline s = Some s' → Inv N M cfg s'.
Proof.
  intros [HstL HstB HsdL HsdB HK Hmain] Hstep. simpl in Hstep.
  destruct (sdCtx s) eqn:Hk; try discriminate; simpl in *.
  inv_fields Hk.
Qed.


Lemma Inv_step_RecvFnErrs N M cfg s s' :
  Inv N M cfg s → step N M cfg EvRecvFnErrs s = Some s' → Inv N M cfg s'.
Proof.
  intros [HstL HstB HsdL HsdB HK Hmain] Hstep. simpl in Hstep.
  destruct (pc s) eqn:Hpc; try discriminate; simpl in *.
  - inv_break. unfold main_ok in Hmain. rewrite Hpc in Hmain.
    destruct Hmain as (Her & Hsd & Hrx & Hst & Hfn).
    rewrite Hfn in H. unfold after_startup. destruct e as [x|]; simpl.
    + apply st_sent_Some in H as [-> Hs].
      split; simpl; rewrite ?Hsd, ?Hrx, ?Her in *; try done; try ctx_field.
      all: unfold main_ok; simpl; left; exists x; rewrite ?Her, ?Hsd, ?Hrx; eauto 10.
    + apply st_sent_None in H as [-> Hs].
      split; simpl; rewrite ?Hsd, ?Hrx, ?Her in *; try done; try ctx_field.
      all: unfold main_ok; simpl; by rewrite ?Her, ?Hsd, ?Hrx.
  - inv_break. unfold main_ok in Hmain. rewrite Hpc in Hmain.
    destruct Hmain as (Htr & Hst & Hsd & Hlen & Hlt & Her & Hctx).
    unfold collect_head, return_er.
    destruct (S i <? M)%nat eqn:Hi; destruct e as [x|]; simpl; inv_break.
    all: split; simpl; rewrite ?H in *; try assumption.
    all: rewrite <- ?app_assoc; simpl; try assumption.
    all: unfold main_ok, trigger_ok in *; simpl;
      rewrite ?length_app, ?nonnil_snoc_some, ?nonnil_snoc_nil, ?Her; simpl.
    all: destruct Htr as [Htr1 Htr2].
    all: first [ solve [split_and!; auto; lia]
               | right; split_and!; auto; left; split; [lia | done] ].
Qed.

Lemma Inv_step_CtxDone N M cfg s s' :
  Inv N M cfg s → step N M cfg EvCtxDone s = Some s' → Inv N M cfg s'.
Proof.
  intros [HstL HstB HsdL HsdB HK Hmain] Hstep. simpl in Hstep.
  destruct (pc s) eqn:Hpc; try discriminate; simpl in *.
  - destruct (ctxErr (stCtx s)) as [x|] eqn:Hx; try discriminate; simpl in *.
    inv_break. unfold main_ok in Hmain. rewrite Hpc in Hmain.
    destruct Hmain as (Her & Hsd & Hrx & Hst & Hfn).
    unfold after_startup; simpl. unfold cancel. rewrite (finish_done _ _ _ Hx).
    split; simpl; rewrite ?Hsd, ?Hrx, ?Her in *; try done.
    all: unfold main_ok; simpl; left; exists x; rewrite ?Her, ?Hsd, ?Hrx; eauto 10.
  - destruct (ctxErr (sdCtx s)) as [x|] eqn:Hx; try discriminate; simpl in *.
    inv_break. unfold main_ok in Hmain. rewrite Hpc in Hmain.
    destruct Hmain as (Htr & Hst & Hsd & Hlen & Hlt & Her & Hctx).
    destruct Hctx as [Hctx|Hctx]; [congruence|]. assert (x = DeadlineExceeded) as -> by congruence.
    unfold return_er, cancel. rewrite (finish_done _ _ _ Hx).
    split; simpl; try assumption.
    unfold main_ok; simpl. right. rewrite Her. split_and!; auto. right. rewrite Hlen. auto.
Qed.

Lemma Inv_begin_shutdown N M cfg s r :
  Inv N M cfg s → pc s = MTrigger → trigger_ok r → ErrsShutdown r = [] →
  Inv N M cfg (begin_shutdown M cfg (set_er r s)).
Proof.
  intros [HstL HstB HsdL HsdB HK Hmain] Hpc Hr Hnil.
  unfold main_ok in Hmain. rewrite Hpc in Hmain.
  destruct Hmain as (Her & Hsd & Hrx & Hst & Hfn).
  rewrite Hsd, Hrx, Hfn in *.
  unfold begin_shutdown, collect_head, return_er.
  destruct (0 <? M)%nat eqn:Hi; inv_break; simpl.
  - split; simpl; rewrite ?Hrx, ?Hfn; simpl; try done; try lia.
    unfold main_ok; simpl. rewrite Hrx. split_and!; auto using newCtx_open.
  - split; simpl; rewrite ?Hrx, ?Hfn; simpl; try done; try lia.
    unfold main_ok; simpl. rewrite Hrx.
    right; split_and!; auto; left; split; [simpl; lia | done].
Qed.

Lemma Inv_set_rte N M cfg s l : Inv N M cfg s → Inv N M cfg (set_rte l s).
Proof. intros []; by split. Qed.

Lemma Inv_set_osSig N M cfg s l : Inv N M cfg s → Inv N M cfg (set_osSig l s).
Proof. intros []; by split. Qed.

Lemma Inv_step_RecvRte N M cfg s s' :
  Inv N M cfg s → step N M cfg EvRecvRte s = Some s' → Inv N M cfg s'.
Proof.
  intros HI Hstep. simpl in Hstep.
  destruct (pc s) eqn:Hpc; try discriminate; simpl in *.
  inv_break. pose proof (inv_main _ _ _ _ HI) as Hm.
  unfold main_ok in Hm. rewrite Hpc in Hm. destruct Hm as [Her _].
  apply (Inv_begin_shutdown N M cfg (set_rte _ s)); [by apply Inv_set_rte | done | | ].
  - simpl. rewrite Her. split; simpl; auto.
  - simpl. by rewrite Her.
Qed.

Lemma Inv_step_RecvSig N M cfg s s' :
  Inv N M cfg s → step N M cfg EvRecvSig s = Some s' → Inv N M cfg s'.
Proof.
  intros HI Hstep. simpl in Hstep.
  destruct (pc s) eqn:Hpc; try discriminate; simpl in *.
  inv_break. pose proof (inv_main _ _ _ _ HI) as Hm.
  unfold main_ok in Hm. rewrite Hpc in Hm. destruct Hm as [Her _].
  apply (Inv_begin_shutdown N M cfg (set_osSig _ s)); [by apply Inv_set_osSig | done | | ].
  - simpl. rewrite Her. split; simpl; auto.
  - simpl. by rewrite Her.
Qed.

Lemma Inv_step_env N M cfg s s' ev :
  match ev with EvShutdownCall _ | EvSignal _ => True | _ => False end →
  Inv N M cfg s → step N M cfg ev s = Some s' → Inv N M cfg s'.
Proof.
  intros Hev [HstL HstB HsdL HsdB HK Hmain] Hstep.
  destruct ev; try done; simpl in Hstep.
  - inv_break. by split.
  - destruct (notified s && _); [|done]. inv_break. by split.
Qed.

Lemma Inv_step N M cfg ev s s' :
  Inv N M cfg s → step N M cfg ev s = Some s' → Inv N M cfg s'.
Proof.
  intros HI Hs. destruct ev.
  - exact (Inv_step_StartupNext _ _ _ _ _ HI Hs).
  - exact (Inv_step_StartupReturn _ _ _ _ _ _ HI Hs).
  - exact (Inv_step_StartupDeadline _ _ _ _ _ HI Hs).
  - exact (Inv_step_ShutdownNext _ _ _ _ _ HI Hs).
  - exact (Inv_step_ShutdownReturn _ _ _ _ _ _ HI Hs).
  - exact (Inv_step_ShutdownDeadline _ _ _ _ _ HI Hs).
  - exact (Inv_step_RecvFnErrs _ _ _ _ _ HI Hs).
  - exact (Inv_step_CtxDone _ _ _ _ _ HI Hs).
  - exact (Inv_step_RecvRte _ _ _ _ _ HI Hs).
  - exact (Inv_step_RecvSig _ _ _ _ _ HI Hs).
  - exact (Inv_step_env _ _ _ _ _ (EvShutdownCall e) I HI Hs).
  - exact (Inv_step_env _ _ _ _ _ (EvSignal sig) I HI Hs).
Qed.

(** ** Every state Start reaches satisfies the invariant *)

Lemma Inv_exec N M cfg evs : ∀ s s',
  Inv N M cfg s → exec N M cfg evs s = Some s' → Inv N M cfg s'.
Proof.
  induction evs as [|ev evs IH]; intros s s' HI Hx; simpl in Hx.
  - by simplify_eq.
  - apply bind_Some in Hx as (s1 & Hs & Hx). eauto using Inv_step.
Qed.

Lemma Start_Inv N M opts rte0 evs s :
  Start N M opts rte0 evs = Some s → Inv N M (Start_init opts rte0).1 s.
Proof. unfold Start. apply Inv_exec, Inv_init. Qed.

Lemma exec_app N M cfg evs evs' s :
  exec N M cfg (evs ++ evs') s = exec N M cfg evs s ≫= exec N M cfg evs'.
Proof.
  revert s. induction evs as [|ev evs IH]; intros s; simpl; [done|].
  destruct (step N M cfg ev s) as [s1|]; simpl; [apply IH | done].
Qed.

Lemma Start_app N M opts rte0 evs evs' s :
  Start N M opts rte0 evs = Some s →
  Start N M opts rte0 (evs ++ evs') = exec N M (Start_init opts rte0).1 evs' s.
Proof. unfold Start. intros Hs. by rewrite exec_app, Hs. Qed.

(** ** Facts about histories *)

Lemma Invoke_calls_done i k rs :
  Invoke i ∈ calls_done k rs → ∃ r, Return i r ∈ calls_done k rs.
Proof.
  revert k; induction rs as [|r rs IH]; intros k.
  - by intros ?%elem_of_nil.
  - change (calls_done k (r :: rs)) with (Invoke k :: Return k r :: calls_done (S k) rs).
    intros [Heq|[Heq|Hin]%elem_of_cons]%elem_of_cons; simplify_eq.
    + exists r. apply elem_of_cons. right. apply elem_of_cons. by left.
    + apply IH in Hin as [r' ?]. exists r'. by do 2 (apply elem_of_cons; right).
Qed.

Lemma Return_calls_done i e k rs :
  Return i e ∈ calls_done k rs → (k ≤ i < k + length rs)%nat ∧ rs !! (i - k)%nat = Some e.
Proof.
  revert k; induction rs as [|r rs IH]; intros k.
  - by intros ?%elem_of_nil.
  - change (calls_done k (r :: rs)) with (Invoke k :: Return k r :: calls_done (S k) rs).
    intros [Heq|[Heq|Hin]%elem_of_cons]%elem_of_cons; simplify_eq.
    + simpl. rewrite Nat.sub_diag. split; [lia | done].
    + apply IH in Hin as [? Hl]. simpl. split; [lia|].
      replace (i - k)%nat with (S (i - S k)) by lia. done.
Qed.

Lemma not_running_calls_done rs i : ¬ running (calls_done 0 rs) i.
Proof. intros [[r Hr]%Invoke_calls_done Hn]. by apply (Hn r). Qed.

Lemma running_calls_pending rs k i :
  running (calls_done 0 rs ++ [Invoke k]) i → i = k.
Proof.
  intros [Hin Hn]. apply elem_of_app in Hin as [Hin|Hin].
  - apply Invoke_calls_done in Hin as [r Hr]. destruct (Hn r).
    apply elem_of_app. by left.
  - apply list_elem_of_singleton in Hin. by simplify_eq.
Qed.

Lemma running_sd_shape rs w i j :
  running (sd_shape rs w) i → running (sd_shape rs w) j → i = j.
Proof.
  destruct w; simpl; intros Hi Hj.
  - destruct Hi as [Hi _]. by apply elem_of_nil in Hi.
  - by apply not_running_calls_done in Hi.
  - apply running_calls_pending in Hi, Hj. congruence.
  - by apply not_running_calls_done in Hi.
  - by apply not_running_calls_done in Hi.
Qed.

(** At most one shutdown function is running at any time. *)
Lemma shutdown_one_at_a_time N M opts rte0 evs s i j :
  Start N M opts rte0 evs = Some s →
  running (sdLog s) i → running (sdLog s) j → i = j.
Proof.
  intros HI%Start_Inv. rewrite (inv_sdLog _ _ _ _ HI). apply running_sd_shape.
Qed.

Lemma nonnil_Forall es : Forall (λ e : error, e ≠ None) (nonnil es).
Proof. apply Forall_forall. by intros e [? _]%list_elem_of_filter. Qed.

Lemma nonnil_id es : Forall (λ e : error, e ≠ None) es → nonnil es = es.
Proof.
  induction 1 as [|e es He _ IH]; [done|].
  unfold nonnil in *. rewrite filter_cons_True by done. by rewrite IH.
Qed.

(** ** Startup *)

Lemma Return_replicate_nil i x k :
  Return i (Some x) ∉ calls_done 0 (replicate k None).
Proof.
  intros [_ Hl]%Return_calls_done. by apply lookup_replicate in Hl as [? _].
Qed.

Lemma Return_st_shape N w i x :
  Return i (Some x) ∈ st_shape N w →
  st_shape N w = calls_done 0 (replicate i None) ++ [Invoke i; Return i (Some x)] ∧
  (w = SWSendErr i x ∨ w = SWCancel i x ∨ w = SWReturned i x).
Proof.
  destruct w; simpl; intros Hin;
    try (by apply Return_replicate_nil in Hin);
    try (by apply elem_of_nil in Hin).
  - apply elem_of_app in Hin as [Hin|Hin]; [by apply Return_replicate_nil in Hin|].
    by apply list_elem_of_singleton in Hin.
  - apply elem_of_app in Hin as [Hin|Hin]; [by apply Return_replicate_nil in Hin|].
    apply elem_of_cons in Hin as [?|Hin%list_elem_of_singleton]; simplify_eq. eauto.
  - apply elem_of_app in Hin as [Hin|Hin]; [by apply Return_replicate_nil in Hin|].
    apply elem_of_cons in Hin as [?|Hin%list_elem_of_singleton]; simplify_eq. eauto.
  - apply elem_of_app in Hin as [Hin|Hin]; [by apply Return_replicate_nil in Hin|].
    apply elem_of_cons in Hin as [?|Hin%list_elem_of_singleton]; simplify_eq. eauto.
Qed.

Lemma result_Some s r : result s = Some r → pc s = MReturned ∧ r = er s.
Proof. unfold result. destruct (pc s); intros; by simplify_eq. Qed.

(** ** Shutdown *)

(** C1 (amended): the shutdown functions are called by one goroutine, one
    at a time in declaration order: a function is called only after the one
    before it has returned and its result has been sent on [fnErrs], so that
    the values Start receives are the results in declaration order.  Start
    returns from the shutdown phase only after it has received as many
    values as there are shutdown functions, or after the deadline of the
    shutdown context passed, in which case the deadline error closes
    [ErrsShutdown]. *)
Theorem shutdown_sequential_until_done_or_timeout N M opts rte0 evs s :
  Start N M opts rte0 evs = Some s →
  (sdW s = DWNone ∧ sdLog s = [] ∨
   sdW s ≠ DWNone ∧ (length (rxLog s ++ fnErrs s) ≤ M)%nat ∧
   (sdLog s = calls_done 0 (rxLog s ++ fnErrs s) ∨
    ((length (rxLog s ++ fnErrs s) < M)%nat ∧
     (sdLog s = calls_done 0 (rxLog s ++ fnErrs s) ++
                [Invoke (length (rxLog s ++ fnErrs s))] ∨
      ∃ e, sdLog s = calls_done 0 ((rxLog s ++ fnErrs s) ++ [e]))))) ∧
  (∀ i j, running (sdLog s) i → running (sdLog s) j → i = j) ∧
  (∀ r, result s = Some r → ErrStartup r = None →
     (length (rxLog s) = M ∧ ErrsShutdown r = nonnil (rxLog s)) ∨
     ((length (rxLog s) < M)%nat ∧ ctxErr (sdCtx s) = Some DeadlineExceeded ∧
      ErrsShutdown r = nonnil (rxLog s) ++ [Some DeadlineExceeded])).
Proof.
  intros Hs. pose proof (Start_Inv _ _ _ _ _ _ Hs) as [_ _ HsdL HsdB _ Hmain].
  split_and!.
  - rewrite HsdL. destruct (sdW s) as [|i|i|i e|] eqn:Hw; simpl in *.
    + by left.
    + right. destruct HsdB as [-> ?]. split_and!; [done | done | by left].
    + right. destruct HsdB as [-> ?]. split_and!; [done | lia | right; eauto].
    + right. destruct HsdB as [<- ?]. split_and!; [done | lia | right; eauto].
    + right. split_and!; [done | lia | by left].
  - intros i j. by apply (shutdown_one_at_a_time _ _ _ _ _ _ _ _ Hs).
  - intros r [Hpc ->]%result_Some Hnil. unfold main_ok in Hmain. rewrite Hpc in Hmain.
    destruct Hmain as [(y & Her & _)|(_ & _ & _ & [[? ?]|(? & ? & ?)])].
    + by rewrite Her in Hnil.
    + by left.
    + by right.
Qed.

(** C3 (amended): when the deadline of the shutdown context has passed
    while Start is collecting, with J reports received, Start can return at
    once, without waiting for the functions that have not reported; if no
    report is waiting on [fnErrs] that is all it can do, and if one is
    waiting the select can take it instead, and the collecting goes on.
    When Start returns so, [ErrsShutdown] is the non-nil reports received so
    far, in the order received, followed by the deadline error: all of the
    reports when none of them is nil.  Every return of Start from the
    shutdown is of one of two kinds: the M reports are received and
    [ErrsShutdown] is the non-nil ones among them and nothing else, or fewer
    are received, the deadline has passed and [ErrsShutdown] has the form
    above. *)
Theorem shutdown_timeout_stops_collecting N M opts rte0 evs s :
  Start N M opts rte0 evs = Some s →
  (∀ J, pc s = MCollect J → ctxErr (sdCtx s) ≠ None →
     length (rxLog s) = J ∧ (J < M)%nat ∧
     (∃ s', step N M (Start_init opts rte0).1 EvCtxDone s = Some s' ∧
        Start N M opts rte0 (evs ++ [EvCtxDone]) = Some s' ∧
        result s' = Some (er s') ∧ rxLog s' = rxLog s ∧
        ErrsShutdown (er s') = nonnil (rxLog s) ++ [Some DeadlineExceeded]) ∧
     (fnErrs s = [] →
        step N M (Start_init opts rte0).1 EvRecvFnErrs s = None ∧
        Start N M opts rte0 (evs ++ [EvRecvFnErrs]) = None) ∧
     (∀ e buf, fnErrs s = e :: buf →
        ∃ s', Start N M opts rte0 (evs ++ [EvRecvFnErrs]) = Some s' ∧
              rxLog s' = rxLog s ++ [e] ∧
              ErrsShutdown (er s') = nonnil (rxLog s ++ [e])) ∧
     (Forall (λ e, e ≠ None) (rxLog s) → nonnil (rxLog s) = rxLog s)) ∧
  (∀ r, result s = Some r → ErrStartup r = None →
     (length (rxLog s) = M ∧ ErrsShutdown r = nonnil (rxLog s)) ∨
     ((length (rxLog s) < M)%nat ∧ ctxErr (sdCtx s) = Some DeadlineExceeded ∧
      ErrsShutdown r = nonnil (rxLog s) ++ [Some DeadlineExceeded])) ∧
  (∀ r, result s = Some r → ErrStartup r = None → (length (rxLog s) < M)%nat →
     ErrsShutdown r = nonnil (rxLog s) ++ [Some DeadlineExceeded]).
Proof.
  intros Hs. pose proof (Start_Inv _ _ _ _ _ _ Hs) as [_ _ _ _ _ Hmain]. split_and!.
  - intros J Hpc Hdone. unfold main_ok in Hmain. rewrite Hpc in Hmain.
    destruct Hmain as (_ & _ & _ & Hlen & Hlt & Her & [Hc|Hc]); [done|].
    split_and!; [done | done | | | | apply nonnil_id].
    + rewrite (Start_app _ _ _ _ _ _ _ Hs). simpl. rewrite Hpc, Hc. simpl.
      eexists. split_and!; [done | done | | done |].
      * unfold result, return_er. by simpl.
      * unfold return_er. simpl. by rewrite Her.
    + intros Hfn. rewrite (Start_app _ _ _ _ _ _ _ Hs). simpl. by rewrite Hpc, Hfn.
    + intros e buf Hfn. rewrite (Start_app _ _ _ _ _ _ _ Hs). simpl.
      rewrite Hpc, Hfn. simpl. eexists. split; [done|].
      unfold collect_head, return_er.
      destruct (S J <? M)%nat; destruct e as [x|]; simpl;
        rewrite ?Her, ?nonnil_snoc_some, ?nonnil_snoc_nil; done.
  - intros r [Hpc ->]%result_Some Hnil. unfold main_ok in Hmain. rewrite Hpc in Hmain.
    destruct Hmain as [(y & Her & _)|(_ & _ & _ & [[? ?]|(? & ? & ?)])].
    + by rewrite Her in Hnil.
    + by left.
    + by right.
  - intros r [Hpc ->]%result_Some Hnil Hlt. unfold main_ok in Hmain. rewrite Hpc in Hmain.
    destruct Hmain as [(y & Her & _)|(_ & _ & _ & [[? ?]|(? & ? & ?)])].
    + by rewrite Her in Hnil.
    + lia.
    + done.
Qed.

(** ** The ExitReason *)


Lemma renderAll_Some es : ∀ acc,
  Forall (λ e : error, e ≠ None) es → is_Some (renderAll acc es).
Proof.
  induction es as [|[x|] es IH]; intros acc Hall; simpl.
  - done.
  - apply IH. by apply Forall_inv_tail in Hall.
  - by apply Forall_inv in Hall.
Qed.

(** C10: no element of the [ErrsShutdown] of an ExitReason returned by
    Start is nil, so [ToPrintable] calls [Error()] on non-nil values only
    and returns. *)
Theorem ErrsShutdown_never_nil signalString N M opts rte0 evs s r :
  Start N M opts rte0 evs = Some s → result s = Some r →
  Forall (λ e, e ≠ None) (ErrsShutdown r) ∧
  is_Some (ToPrintable signalString r).
Proof.
  intros [_ _ _ _ _ Hmain]%Start_Inv [Hpc ->]%result_Some.
  assert (Forall (λ e, e ≠ None) (ErrsShutdown (er s))) as Hall.
  { unfold main_ok in Hmain. rewrite Hpc in Hmain.
    destruct Hmain as [(y & -> & _)|(_ & _ & _ & [[_ ->]|(_ & -> & _)])].
    - by apply Forall_nil.
    - apply nonnil_Forall.
    - apply Forall_app. split; [apply nonnil_Forall | by apply Forall_singleton]. }
  split; [done|]. unfold ToPrintable.
  by destruct (renderAll_Some _ [] Hall) as [l ->].
Qed.

(** ** Configuration *)

Lemma parseOptions_app pre : ∀ cfg cfg' l,
  parseOptions cfg pre = (cfg', None) → parseOptions cfg (pre ++ l) = parseOptions cfg' l.
Proof.
  induction pre as [|opt pre IH]; intros cfg cfg' l Hp; simpl in *.
  - by simplify_eq.
  - repeat case_match; simplify_eq; eauto.
Qed.

Lemma parseOptions_prefix_fails pre : ∀ cfg cfg' e l,
  parseOptions cfg pre = (cfg', Some e) → (parseOptions cfg (pre ++ l)).2 = Some e.
Proof.
  induction pre as [|opt pre IH]; intros cfg cfg' e l Hp; simpl in *.
  - by simplify_eq.
  - repeat case_match; simplify_eq; eauto.
Qed.

Lemma parseOptions_bad_timeout cfg opt post :
  timeout_option opt → (∀ d, value opt = VDuration d → d ≤ 0) →
  ∃ e, (parseOptions cfg (opt :: post)).2 = Some e ∧
       ((∃ d, value opt = VDuration d) → validation_error e) ∧
       ((∀ d, value opt ≠ VDuration d) → type_error e).
Proof.
  unfold timeout_option, validation_error, type_error,
    optionStartupTimeout, optionShutdownTimeout.
  intros [Hc|Hc] Hd; simpl; rewrite Hc; simpl.
  - destruct (value opt) as [d| |] eqn:Hv.
    + specialize (Hd d eq_refl). destruct (d <? 1) eqn:Hlt; [|lia].
      eexists. split_and!; [done | by left | intros Hn; by destruct (Hn d)].
    + eexists. split_and!; [done | by intros [? ?] | done].
    + eexists. split_and!; [done | by intros [? ?] | done].
  - destruct (value opt) as [d| |] eqn:Hv.
    + specialize (Hd d eq_refl). destruct (d <? 1) eqn:Hlt; [|lia].
      eexists. split_and!; [done | by right | intros Hn; by destruct (Hn d)].
    + eexists. split_and!; [done | by intros [? ?] | done].
    + eexists. split_and!; [done | by intros [? ?] | done].
Qed.

Lemma never_started_step N M cfg r ev s s' :
  never_started r s → step N M cfg ev s = Some s' → never_started r s'.
Proof.
  intros (Hpc & Her & Hst & Hsd & HstL & HsdL & Hc1 & Hc2) Hs.
  destruct ev; simpl in Hs; rewrite ?Hpc, ?Hst, ?Hsd, ?Hc1, ?Hc2 in Hs;
    try discriminate; [| case_match; [|done]]; by simplify_eq.
Qed.

Lemma never_started_exec N M cfg r evs : ∀ s s',
  never_started r s → exec N M cfg evs s = Some s' → never_started r s'.
Proof.
  induction evs as [|ev evs IH]; intros s s' Hn Hx; simpl in Hx.
  - by simplify_eq.
  - apply bind_Some in Hx as (s1 & Hs & Hx). eauto using never_started_step.
Qed.

Lemma Start_parse_failure N M opts rte0 evs s e :
  (parseOptions defaultConfig opts).2 = Some e →
  Start N M opts rte0 evs = Some s →
  never_started (set_ErrStartup (Some e) emptyExitReason) s.
Proof.
  unfold Start, Start_init. destruct (parseOptions defaultConfig opts) as [cfg o].
  simpl. intros ->. simpl. by apply never_started_exec.
Qed.

(** C8: when the options hold a startup- or shutdown-timeout option whose
    payload is a duration of zero or less, or is not a duration, parseOptions
    returns an error, Start returns an ExitReason with that error as
    [ErrStartup] and nothing else set, and no startup or shutdown function
    is ever called.  When the options before it are valid, the error is the
    validation error for a duration and the type error otherwise. *)
Theorem invalid_timeout_option_fails N M pre opt post rte0 evs s :
  timeout_option opt →
  (∀ d, value opt = VDuration d → d ≤ 0) →
  Start N M (pre ++ opt :: post) rte0 evs = Some s →
  ∃ e, (parseOptions defaultConfig (pre ++ opt :: post)).2 = Some e ∧
       result s = Some (set_ErrStartup (Some e) emptyExitReason) ∧
       stLog s = [] ∧ sdLog s = [] ∧ stW s = SWNone ∧ sdW s = DWNone ∧
       ((parseOptions defaultConfig pre).2 = None →
        ((∃ d, value opt = VDuration d) → validation_error e) ∧
        ((∀ d, value opt ≠ VDuration d) → type_error e)).
Proof.
  intros Ht Hd Hs.
  destruct (parseOptions defaultConfig pre) as [cfg' [e0|]] eqn:Hpre.
  - pose proof (parseOptions_prefix_fails _ _ _ _ (opt :: post) Hpre) as Hp.
    destruct (Start_parse_failure _ _ _ _ _ _ _ Hp Hs)
      as (Hpc & Her & Hst & Hsd & HstL & HsdL & _).
    exists e0. unfold result. rewrite Hpc, Her. by split_and!.
  - destruct (parseOptions_bad_timeout cfg' opt post Ht Hd) as (e & Hp & Hv & Hty).
    rewrite <- (parseOptions_app _ _ _ _ Hpre) in Hp.
    destruct (Start_parse_failure _ _ _ _ _ _ _ Hp Hs)
      as (Hpc & Her & Hst & Hsd & HstL & HsdL & _).
    exists e. unfold result. rewrite Hpc, Her. by split_and!.
Qed.

(** ** Shutdown requests *)

Lemma Shutdowns_pending es v rte : Shutdowns es (v :: rte) = v :: rte.
Proof. unfold Shutdowns. by induction es as [|e es IH]. Qed.

(** C6: Shutdown never blocks; it stores its error, nil or not, when the
    channel holds no value and leaves the channel as it is otherwise.  So a
    sequence of calls on an empty channel leaves exactly the first error
    in it, a sequence of calls on a channel that holds a value changes
    nothing, and the channel never holds more than one value. *)
Theorem Shutdown_first_wins :
  (∀ e rte, Shutdown e rte = match rte with [] => [e] | _ :: _ => rte end) ∧
  (∀ es, Shutdowns es [] = take 1 es) ∧
  (∀ es v rte, Shutdowns es (v :: rte) = v :: rte) ∧
  (∀ es rte, (length rte ≤ 1)%nat → (length (Shutdowns es rte) ≤ 1)%nat).
Proof.
  split_and!.
  - by intros e [|v rte].
  - intros [|e es]; [done|]. apply (Shutdowns_pending es e []).
  - apply Shutdowns_pending.
  - intros es [|v rte] Hl.
    + destruct es as [|e es]; [simpl; lia|].
      change (Shutdowns (e :: es) []) with (Shutdowns es [e]).
      by rewrite Shutdowns_pending.
    + by rewrite Shutdowns_pending.
Qed.

(** ** Multi *)

Lemma first_nonnil_snoc es e :
  first_nonnil (es ++ [e]) = keep_first (first_nonnil es) e.
Proof.
  induction es as [|[x|] es IH]; simpl.
  - by destruct e.
  - done.
  - done.
Qed.



Lemma ended_le ws : (ended ws ≤ length ws)%nat.
Proof. apply length_filter. Qed.

Lemma ended_cons w ws :
  ended (w :: ws) = ((if decide (w = MWEnd) then 1 else 0) + ended ws)%nat.
Proof.
  unfold ended. destruct (decide (w = MWEnd)).
  - by rewrite filter_cons_True.
  - by rewrite filter_cons_False.
Qed.

Lemma ended_insert ws : ∀ j w w',
  ws !! j = Some w → w ≠ MWEnd →
  ended (<[j := w']> ws) = ((if decide (w' = MWEnd) then 1 else 0) + ended ws)%nat.
Proof.
  induction ws as [|w0 ws IH]; intros [|j] w w' Hl Hw; simplify_eq/=.
  - rewrite !ended_cons. destruct (decide (w = MWEnd)); [done|]. lia.
  - rewrite !ended_cons, (IH j w w' Hl Hw). lia.
Qed.

Lemma ended_lt ws : ∀ j w, ws !! j = Some w → w ≠ MWEnd → (ended ws < length ws)%nat.
Proof.
  induction ws as [|w0 ws IH]; intros [|j] w Hl Hw; simplify_eq/=; rewrite ended_cons.
  - destruct (decide (w = MWEnd)); [done|]. pose proof (ended_le ws). lia.
  - specialize (IH j w Hl Hw). destruct (decide (w0 = MWEnd)); lia.
Qed.

Lemma ended_all ws : ended ws = length ws → Forall (λ w, w = MWEnd) ws.
Proof.
  induction ws as [|w ws IH]; [done|]. rewrite ended_cons. simpl.
  pose proof (ended_le ws). destruct (decide (w = MWEnd)); [|lia].
  intros Hl. constructor; [done|]. apply IH. lia.
Qed.

Lemma MInv_init K ctx0 : MInv K (Multi_init K ctx0).
Proof.
  split; simpl.
  - apply length_replicate.
  - done.
  - unfold ended. induction K as [|K IH]; [done|]. simpl.
    by rewrite filter_cons_False.
  - unfold multi_head. destruct (0 <? K)%nat eqn:HK.
    + apply Nat.ltb_lt in HK. by split_and!.
    + apply Nat.ltb_ge in HK. right. split; [simpl; lia | done].
Qed.

Lemma MInv_step K ev s s' :
  MInv K s → multi_step ev s = Some s' → MInv K s'.
Proof.
  intros [Hw Hr He Hm] Hs. destruct ev as [j e|j|why| |]; simpl in Hs.
  - destruct (workers s !! j) as [[| |]|] eqn:Hj; simplify_eq.
    split; simpl; [by rewrite length_insert | done | | done].
    by rewrite (ended_insert _ _ _ _ Hj).
  - destruct (workers s !! j) as [[|e|]|] eqn:Hj; simplify_eq.
    apply bind_Some in Hs as (buf & [-> _]%send_Some & ?). simplify_eq.
    split; simpl; [by rewrite length_insert | | | done].
    + by rewrite fmap_app, Hr, <- app_assoc.
    + rewrite length_app, (ended_insert _ _ _ _ Hj) by done. simpl. lia.
  - simplify_eq. split; simpl; [done..|].
    destruct (mpc s); [done|]. destruct Hm as [(Hc & -> & Hl)|Hm]; [left|by right].
    by destruct (mctx s).
  - destruct (mpc s) as [i err|]; [|done].
    apply bind_Some in Hs as ([e buf] & Hrecv%recv_Some & ?). simplify_eq.
    destruct Hm as (Hi & Hl & ->).
    split; simpl; [done | by rewrite Hr, Hrecv, <- app_assoc | done |].
    unfold multi_head. destruct (S i <? _)%nat eqn:HK.
    + apply Nat.ltb_lt in HK. rewrite length_app, first_nonnil_snoc. simpl.
      split_and!; [done | lia | done].
    + apply Nat.ltb_ge in HK. right. rewrite length_app, first_nonnil_snoc. simpl.
      split; [lia | done].
  - destruct (mpc s) as [i err|]; [|done].
    destruct (mctx s) as [ce|] eqn:Hc; simplify_eq/=.
    destruct Hm as (Hi & Hl & ->).
    split; simpl; [done..|]. left. split_and!; [done | done | lia].
Qed.

Lemma MInv_exec K evs : ∀ s s',
  MInv K s → multi_exec evs s = Some s' → MInv K s'.
Proof.
  induction evs as [|ev evs IH]; intros s s' HI Hx; simpl in Hx.
  - by simplify_eq.
  - apply bind_Some in Hx as (s1 & Hs & Hx). eauto using MInv_step.
Qed.

Lemma Multi_MInv K ctx0 evs s : Multi K ctx0 evs = Some s → MInv K s.
Proof. apply MInv_exec, MInv_init. Qed.

(** The channel has room for every report: no goroutine of Multi ever
    blocks on its send. *)
Lemma multi_send_never_blocks K s j e :
  MInv K s → workers s !! j = Some (MWSend e) → is_Some (multi_step (MEvSend j) s).
Proof.
  intros [_ Hr He _] Hj. simpl. rewrite Hj. unfold Chan.send.
  assert (length (received s ++ errCh s) = length (reported s)) as Hlen
    by (by rewrite <- Hr, length_fmap).
  rewrite length_app in Hlen.
  pose proof (ended_lt (workers s) j (MWSend e) Hj ltac:(done)) as Hlt.
  destruct (length (errCh s) <? length (workers s))%nat eqn:Hc; [done|].
  apply Nat.ltb_ge in Hc. lia.
Qed.

Lemma multi_result_Some s r : multi_result s = Some r → mpc s = MuReturned r.
Proof. unfold multi_result. destruct (mpc s); intros; by simplify_eq. Qed.


Lemma MInv_all_received K s :
  MInv K s → length (received s) = K →
  errCh s = [] ∧ (snd <$> reported s) = received s ∧
  Forall (λ w, w = MWEnd) (workers s).
Proof.
  intros [Hw Hr He _] Hl.
  pose proof (ended_le (workers s)) as Hle.
  assert (length (received s ++ errCh s) = length (reported s)) as Hlen
    by (by rewrite <- Hr, length_fmap).
  rewrite length_app in Hlen.
  assert (errCh s = []) as Hch by (apply length_zero_iff_nil; lia).
  rewrite Hch, app_nil_r in Hr. split_and!; [done | done |].
  apply ended_all. rewrite Hch in Hlen. simpl in Hlen. lia.
Qed.







(** C9: the function returned by Multi for no function at all has returned
    nil, whatever the context and whatever happens to it. *)
Theorem Multi_of_nothing_returns_nil ctx0 evs s :
  Multi 0 ctx0 evs = Some s → multi_result s = Some None.
Proof.
  intros [_ _ _ Hm]%Multi_MInv. unfold multi_result.
  destruct (mpc s) as [i err|r].
  - destruct Hm as (? & _). lia.
  - destruct Hm as [(_ & _ & ?)|[Hl ->]]; [lia|].
    by apply length_zero_iff_nil in Hl as ->.
Qed.

(** ** Options: what parseOptions accepts *)

Lemma parseOptions_cons_ok cfg opt opts :
  option_ok opt = true →
  parseOptions cfg (opt :: opts) =
  parseOptions
    (mkConfig
       (default (shutdownTimeout cfg) (last (durations_of optionShutdownTimeout [opt])))
       (default (startupTimeout cfg) (last (durations_of optionStartupTimeout [opt])))
       (signals cfg ++ concat (signal_lists [opt]))) opts.
Proof.
  unfold option_ok, durations_of, signal_lists. simpl.
  unfold optionStartupTimeout, optionShutdownTimeout, optionSignals.
  destruct cfg as [sd st sg]. simpl.
  destruct (code opt =? 1) eqn:H1.
  { apply Z.eqb_eq in H1. rewrite H1. simpl.
    destruct (value opt) as [d| |]; try done. intros Hd.
    destruct (d <? 1) eqn:Hlt; [lia|]. simpl. by rewrite app_nil_r. }
  destruct (code opt =? 2) eqn:H2.
  { destruct (value opt) as [d| |]; try done. intros Hd.
    destruct (d <? 1) eqn:Hlt; [lia|].
    apply Z.eqb_eq in H2. rewrite H2. simpl. by rewrite app_nil_r. }
  destruct (code opt =? 10) eqn:H10.
  { destruct (value opt) as [|l|]; try done. intros _. simpl.
    by rewrite !app_nil_r. }
  intros _. simpl. by rewrite app_nil_r.
Qed.

Lemma parseOptions_cons_bad cfg opt opts :
  option_ok opt = false →
  ∃ e, parseOptions cfg (opt :: opts) = (cfg, Some e) ∧
       (parseOptions defaultConfig [opt]).2 = Some e.
Proof.
  unfold option_ok. simpl.
  destruct (code opt =? optionStartupTimeout).
  { destruct (value opt) as [d| |]; [|by eexists..]. intros Hd.
    destruct (d <? 1) eqn:Hlt; [by eexists|lia]. }
  destruct (code opt =? optionShutdownTimeout).
  { destruct (value opt) as [d| |]; [|by eexists..]. intros Hd.
    destruct (d <? 1) eqn:Hlt; [by eexists|lia]. }
  destruct (code opt =? optionSignals); [|done].
  destruct (value opt); try done; by eexists.
Qed.

Lemma last_omap_cons {A B} (f : A → option B) x l d :
  default d (last (omap f (x :: l))) =
  default (default d (last (omap f [x]))) (last (omap f l)).
Proof.
  unfold omap. simpl. destruct (f x) as [y|]; simpl; [|done].
  destruct (list_omap A B f l) as [|z l']; [done|].
  rewrite last_cons_cons. destruct (last (z :: l')) eqn:Hl; [done|].
  by apply last_None in Hl.
Qed.

Lemma parseOptions_valid_nil opts : ∀ cfg,
  forallb option_ok opts = true → (parseOptions cfg opts).2 = None.
Proof.
  induction opts as [|opt opts IH]; intros cfg Hall; [done|].
  simpl in Hall. apply andb_true_iff in Hall as [Hopt Hall].
  rewrite (parseOptions_cons_ok _ _ _ Hopt). by apply IH.
Qed.

(** X1: parseOptions returns nil exactly when every option is acceptable. *)
Theorem parseOptions_succeeds_iff_valid cfg opts :
  (parseOptions cfg opts).2 = None ↔ forallb option_ok opts = true.
Proof.
  split.
  - revert cfg. induction opts as [|opt opts IH]; intros cfg Hp; [done|].
    simpl. destruct (option_ok opt) eqn:Hopt; simpl.
    + rewrite (parseOptions_cons_ok _ _ _ Hopt) in Hp. by apply IH in Hp.
    + destruct (parseOptions_cons_bad cfg opt opts Hopt) as (e & Hp' & _).
      by rewrite Hp' in Hp.
  - apply parseOptions_valid_nil.
Qed.

(** X2: with acceptable options, each timeout of the configuration is the
    duration of the last option that sets it and is left alone when there
    is none, and the signals are those the configuration held followed by
    the signals of every signals option, in the order given. *)
Theorem parseOptions_last_timeout_wins_signals_accumulate cfg opts :
  forallb option_ok opts = true →
  parseOptions cfg opts =
  (mkConfig
     (default (shutdownTimeout cfg) (last (durations_of optionShutdownTimeout opts)))
     (default (startupTimeout cfg) (last (durations_of optionStartupTimeout opts)))
     (signals cfg ++ concat (signal_lists opts)), None).
Proof.
  revert cfg. induction opts as [|opt opts IH]; intros cfg Hall.
  - destruct cfg. simpl. by rewrite app_nil_r.
  - simpl in Hall. apply andb_true_iff in Hall as [Hopt Hall].
    rewrite (parseOptions_cons_ok _ _ _ Hopt), (IH _ Hall).
    cbn [shutdownTimeout startupTimeout signals]. f_equal. f_equal.
    + symmetry. apply last_omap_cons.
    + symmetry. apply last_omap_cons.
    + rewrite <- app_assoc. f_equal. unfold signal_lists. simpl.
      case_match; simpl; [|done]. by rewrite app_nil_r.
Qed.

(** X3: parseOptions stops at the first option it does not accept: the
    error is the one this option gives on its own, the options after it are
    not looked at, and the configuration holds what the options before it
    have set. *)
Theorem parseOptions_stops_at_first_invalid cfg pre bad post :
  forallb option_ok pre = true → option_ok bad = false →
  ∃ e, parseOptions cfg (pre ++ bad :: post) = ((parseOptions cfg pre).1, Some e) ∧
       (parseOptions defaultConfig [bad]).2 = Some e.
Proof.
  intros Hpre Hbad.
  pose proof (parseOptions_valid_nil pre cfg Hpre) as Hnil.
  destruct (parseOptions cfg pre) as [cfg' o] eqn:Hp. simpl in Hnil. subst o.
  rewrite (parseOptions_app pre cfg cfg' (bad :: post) Hp). simpl.
  apply parseOptions_cons_bad, Hbad.
Qed.

(** ** ToPrintable *)

Lemma renderAll_spec es : ∀ acc,
  renderAll acc es =
  if bool_decide (None ∈ es) then None else Some (acc ++ (render <$> es)).
Proof.
  induction es as [|[x|] es IH]; intros acc.
  - rewrite bool_decide_eq_false_2 by apply not_elem_of_nil.
    simpl. by rewrite app_nil_r.
  - change (renderAll acc (Some x :: es)) with (renderAll (acc ++ [Error x]) es).
    rewrite IH, fmap_cons. destruct (decide (None ∈ es)) as [Hin|Hin].
    + rewrite !bool_decide_eq_true_2; [done | by apply elem_of_cons; right | done].
    + rewrite !bool_decide_eq_false_2; [by rewrite <- app_assoc | | done].
      by intros [?|?]%elem_of_cons.
  - rewrite bool_decide_eq_true_2; [done|]. by apply elem_of_cons; left.
Qed.

(** X4: ToPrintable panics exactly when ErrsShutdown holds a nil error. *)
Theorem ToPrintable_panics_iff_nil_entry signalString er :
  ToPrintable signalString er = None ↔ None ∈ ErrsShutdown er.
Proof.
  unfold ToPrintable. rewrite renderAll_spec.
  destruct (bool_decide (None ∈ ErrsShutdown er)) eqn:Hin.
  - apply bool_decide_eq_true in Hin. done.
  - apply bool_decide_eq_false in Hin. done.
Qed.

(** X5: when it returns, ToPrintable gives the text of [String()] for the
    signal and of [Error()] for each error, the empty string for a field
    that is nil, and one text for each shutdown error, in the same
    order. *)
Theorem ToPrintable_renders_each_field signalString er p :
  ToPrintable signalString er = Some p →
  p = mkPrintable (from_option signalString "" (OsSignal er))
                  (render (ErrStartup er)) (render (ErrRuntime er))
                  (render <$> ErrsShutdown er) ∧
  length (pErrsShutdown p) = length (ErrsShutdown er).
Proof.
  unfold ToPrintable. rewrite renderAll_spec.
  destruct (bool_decide (None ∈ ErrsShutdown er)); [done|].
  intros [= <-]. simpl. split; [|by rewrite length_fmap].
  by destruct (OsSignal er).
Qed.

(** ** More of what Start keeps *)

(** Inverts a step: one goal for each way the event can take place. *)
Ltac step_inv H :=
  simpl in H; unfold after_startup, begin_shutdown, collect_head, return_er in H;
  repeat first
    [ progress simplify_eq/=
    | match type of H with
      | (_ ≫= _) = Some _ => apply bind_Some in H as (? & ? & H)
      | context [match ?x with _ => _ end] => destruct x eqn:?
      end ];
  repeat match goal with
  | H' : Chan.send _ _ _ = Some _ |- _ => apply send_Some in H' as [-> ?]
  | H' : Chan.recv _ = Some (_, _) |- _ => apply recv_Some in H'
  end;
  try unfold fnErrsCap in *.

(** Splits the conditionals a step leaves in the goal. *)
Ltac step_goal :=
  simpl in *; repeat (case_match; simpl in *); try done; try congruence.

Lemma step_pc_before N M cfg ev s s' :
  step N M cfg ev s = Some s' → before_trigger (pc s') = true →
  before_trigger (pc s) = true.
Proof. intros Hs. destruct ev; step_inv Hs; step_goal. Qed.

Lemma step_after_trigger N M cfg ev s s' :
  step N M cfg ev s = Some s' → before_trigger (pc s) = false →
  before_trigger (pc s') = false ∧
  OsSignal (er s') = OsSignal (er s) ∧ ErrRuntime (er s') = ErrRuntime (er s) ∧
  ErrStartup (er s') = ErrStartup (er s).
Proof. intros Hs Hpc. destruct ev; step_inv Hs; step_goal. Qed.

Lemma exec_after_trigger N M cfg evs : ∀ s s',
  exec N M cfg evs s = Some s' → before_trigger (pc s) = false →
  before_trigger (pc s') = false ∧
  OsSignal (er s') = OsSignal (er s) ∧ ErrRuntime (er s') = ErrRuntime (er s) ∧
  ErrStartup (er s') = ErrStartup (er s).
Proof.
  induction evs as [|ev evs IH]; intros s s' Hx Hpc; simpl in Hx.
  - by simplify_eq.
  - apply bind_Some in Hx as (s1 & Hs & Hx).
    destruct (step_after_trigger _ _ _ _ _ _ Hs Hpc) as (Hpc1 & H1 & H2 & H3).
    destruct (IH _ _ Hx Hpc1) as (? & ? & ? & ?). split_and!; congruence.
Qed.

Lemma step_returned N M cfg ev s s' :
  step N M cfg ev s = Some s' → pc s = MReturned →
  pc s' = MReturned ∧ er s' = er s ∧ rxLog s' = rxLog s.
Proof. intros Hs Hpc. destruct ev; step_inv Hs; step_goal. Qed.

Lemma exec_returned N M cfg evs : ∀ s s',
  exec N M cfg evs s = Some s' → pc s = MReturned →
  pc s' = MReturned ∧ er s' = er s ∧ rxLog s' = rxLog s.
Proof.
  induction evs as [|ev evs IH]; intros s s' Hx Hpc; simpl in Hx.
  - by simplify_eq.
  - apply bind_Some in Hx as (s1 & Hs & Hx).
    destruct (step_returned _ _ _ _ _ _ Hs Hpc) as (Hpc1 & H1 & H2).
    destruct (IH _ _ Hx Hpc1) as (? & ? & ?). split_and!; congruence.
Qed.

Lemma finish_ErrString why c m :
  (∀ m', why ≠ ErrString m') →
  ctxErr (finish why c) = Some (ErrString m) → ctxErr c = Some (ErrString m).
Proof. destruct c as [|[x|]]; simpl; try done. intros Hw [= ->]. by destruct (Hw m). Qed.

Lemma finish_other why c x :
  x ≠ why → ctxErr (finish why c) = Some x → ctxErr c = Some x.
Proof. destruct c as [|[y|]]; simpl; try done. by intros Hw [= ->]. Qed.

Lemma st_sent_Return N w x l :
  st_sent w = Some x :: l → ∃ i, Return i (Some x) ∈ st_shape N w.
Proof.
  destruct w; simpl; intros [=]; subst; eexists;
    apply elem_of_app; right; apply elem_of_cons; right; by apply elem_of_cons; left.
Qed.

Lemma Wiring_init opts rte0 :
  (parseOptions defaultConfig opts).2 = None →
  Wiring (Start_init opts rte0).1 (Start_init opts rte0).2.
Proof.
  unfold Start_init. destruct (parseOptions defaultConfig opts) as [cfg [e|]]; [done|].
  intros _. split; simpl; try done.
  - lia.
  - by left.
  - intros m. by rewrite newCtx_open.
  - by left.
  - rewrite newCtx_open. by intros [?|[_ ?]].
Qed.

Lemma step_cap N M cfg ev s s' :
  step N M cfg ev s = Some s' →
  (length (fnErrs s) ≤ 1)%nat → (length (fnErrs s') ≤ 1)%nat.
Proof.
  intros Hs Hcap. destruct ev; step_inv Hs; step_goal.
  all: try match goal with H : fnErrs _ = _ :: _ |- _ => rewrite H in * end.
  all: rewrite ?length_app in *; simpl in *; lia.
Qed.

Lemma step_sent N M cfg ev s s' :
  step N M cfg ev s = Some s' → (length (fnErrs s) ≤ 1)%nat →
  (sdW s = DWNone → fnErrs s = [] ∨ fnErrs s = st_sent (stW s)) →
  sdW s' = DWNone → fnErrs s' = [] ∨ fnErrs s' = st_sent (stW s').
Proof.
  intros Hs Hcap Hsent. destruct ev; step_inv Hs; step_goal.
  all: intros Hsd; try specialize (Hsent Hsd).
  all: try match goal with H : fnErrs _ = _ :: _ |- _ => rewrite H in * end.
  all: try (destruct (fnErrs s) as [|? [|? ?]]; simpl in *; simplify_eq; try lia).
  all: try (destruct Hsent as [?|?]; simplify_eq).
  all: auto.
  all: simpl in *; lia.
Qed.

Lemma step_started N M cfg ev s s' :
  step N M cfg ev s = Some s' → stW s ≠ SWNone → stW s' ≠ SWNone.
Proof. intros Hs Hst. destruct ev; step_inv Hs; step_goal. Qed.

Lemma step_osSig N M cfg ev s s' :
  step N M cfg ev s = Some s' →
  Forall (λ sig, sig ∈ signals cfg) (osSig s) →
  (∀ sig, OsSignal (er s) = Some sig → sig ∈ signals cfg) →
  Forall (λ sig, sig ∈ signals cfg) (osSig s') ∧
  (∀ sig, OsSignal (er s') = Some sig → sig ∈ signals cfg).
Proof.
  intros Hs Hsigs Hsig. destruct ev; step_inv Hs; step_goal.
  all: try match goal with H : osSig _ = _ :: _ |- _ =>
    rewrite H in *; apply Forall_cons in Hsigs as [? ?] end.
  all: try (split; [assumption|]; intros ? [= <-]; assumption).
  apply andb_true_iff in Heqb as [_ Hin%bool_decide_eq_true]. split; [|done].
  unfold Chan.try_send. case_match; [|done].
  apply Forall_app. split; [done | by apply Forall_singleton].
Qed.

Lemma step_notified N M cfg ev s s' :
  step N M cfg ev s = Some s' →
  (pc s ≠ MStartupSelect → ErrStartup (er s) = None → notified s = true) →
  pc s' ≠ MStartupSelect → ErrStartup (er s') = None → notified s' = true.
Proof.
  intros Hs Hnot. destruct ev; step_inv Hs; step_goal.
  all: try (intros ? ?; apply Hnot; congruence).
  all: intros _ Hnil; rewrite Hnil in *; done.
Qed.

Lemma step_ctxErr N M cfg ev s s' :
  step N M cfg ev s = Some s' →
  (∀ m, ctxErr (stCtx s) ≠ Some (ErrString m)) →
  ∀ m, ctxErr (stCtx s') ≠ Some (ErrString m).
Proof.
  intros Hs Hctx. destruct ev; step_inv Hs; step_goal.
  all: intros m Hm; apply (Hctx m).
  all: try (apply finish_ErrString in Hm; [congruence | done]).
  all: match goal with H : stCtx _ = _ |- _ => by rewrite H end.
Qed.

Lemma step_sdCtx N M cfg ev s s' :
  step N M cfg ev s = Some s' →
  sdCtx s = Background ∨ 0 < shutdownTimeout cfg →
  sdCtx s' = Background ∨ 0 < shutdownTimeout cfg.
Proof.
  intros Hs Hsd. destruct ev; step_inv Hs; step_goal.
  all: try (destruct Hsd as [Hsd|Hsd]; [|by right]).
  all: try (left; by rewrite ?Hsd).
  all: unfold newCtx; destruct (0 <? shutdownTimeout cfg) eqn:Ht; [right; lia | by left].
Qed.

Lemma step_canceled N M cfg ev s s' :
  Inv N M cfg s → step N M cfg ev s = Some s' →
  (ErrStartup (er s) = Some Canceled ∨
   (pc s = MStartupSelect ∧ ctxErr (stCtx s) = Some Canceled) →
   ∃ i y, Return i (Some y) ∈ stLog s) →
  ErrStartup (er s') = Some Canceled ∨
  (pc s' = MStartupSelect ∧ ctxErr (stCtx s') = Some Canceled) →
  ∃ i y, Return i (Some y) ∈ stLog s'.
Proof.
  intros [HstL _ _ _ _ Hmain] Hs Hcan. destruct ev; step_inv Hs; step_goal.
  all: try (intros Hc; destruct Hcan as (i' & y' & Hin);
            [ destruct Hc as [?|[? ?]]; [by left | right; split; congruence]
            | exists i', y'; first [ exact Hin | apply elem_of_app; by left ] ]).
  - intros _. exists i, x. rewrite HstL.
    apply elem_of_app. right. apply elem_of_cons. right. by apply elem_of_cons; left.
  - intros [->|[? _]]; done.
  - intros [->|[? _]]; [|done]. unfold main_ok in Hmain.
    match goal with H : pc s = _ |- _ => rewrite H in Hmain end.
    destruct Hmain as (_ & _ & _ & _ & Hfn).
    match goal with H : fnErrs s = _ |- _ => rewrite H in Hfn end.
    symmetry in Hfn. apply (st_sent_Return N) in Hfn as [i Hin].
    exists i, Canceled. by rewrite HstL.
  - intros [Hc|[? _]]; [|done]. apply Hcan. by right.
Qed.

Lemma Wiring_step N M cfg ev s s' :
  Inv N M cfg s → Wiring cfg s → step N M cfg ev s = Some s' → Wiring cfg s'.
Proof.
  intros HI [Hcap Hsent Hst Hsigs Hsig Hnot Hctx Hsd Hcan] Hs.
  destruct (step_osSig _ _ _ _ _ _ Hs Hsigs Hsig) as [Hsigs' Hsig'].
  split.
  - exact (step_cap _ _ _ _ _ _ Hs Hcap).
  - exact (step_sent _ _ _ _ _ _ Hs Hcap Hsent).
  - exact (step_started _ _ _ _ _ _ Hs Hst).
  - exact Hsigs'.
  - exact Hsig'.
  - exact (step_notified _ _ _ _ _ _ Hs Hnot).
  - exact (step_ctxErr _ _ _ _ _ _ Hs Hctx).
  - exact (step_sdCtx _ _ _ _ _ _ Hs Hsd).
  - exact (step_canceled _ _ _ _ _ _ HI Hs Hcan).
Qed.

Lemma Wiring_exec N M cfg evs : ∀ s s',
  Inv N M cfg s → Wiring cfg s → exec N M cfg evs s = Some s' → Wiring cfg s'.
Proof.
  induction evs as [|ev evs IH]; intros s s' HI HW Hx; simpl in Hx.
  - by simplify_eq.
  - apply bind_Some in Hx as (s1 & Hs & Hx).
    apply (IH s1); [by apply (Inv_step _ _ _ ev s) | by apply (Wiring_step N M _ ev s) | done].
Qed.

Lemma Start_Wiring N M opts rte0 evs s :
  (parseOptions defaultConfig opts).2 = None →
  Start N M opts rte0 evs = Some s → Wiring (Start_init opts rte0).1 s.
Proof.
  intros Hp. unfold Start. apply Wiring_exec; [apply Inv_init | by apply Wiring_init].
Qed.

(** ** Start: the two cases of its options *)

Lemma Start_init_ok opts rte0 :
  (parseOptions defaultConfig opts).2 = None →
  (Start_init opts rte0).2 =
  mkState MStartupSelect emptyExitReason [] rte0 [] false
          (newCtx (startupTimeout (Start_init opts rte0).1)) Background
          (SWLoop 0) DWNone [] [] [].
Proof.
  unfold Start_init. by destruct (parseOptions defaultConfig opts) as [cfg [e|]].
Qed.

Lemma Start_init_cfg opts rte0 :
  (Start_init opts rte0).1 = (parseOptions defaultConfig opts).1.
Proof.
  unfold Start_init. by destruct (parseOptions defaultConfig opts) as [cfg [e|]].
Qed.

Lemma parse_cases opts :
  (∃ e, (parseOptions defaultConfig opts).2 = Some e) ∨
  (parseOptions defaultConfig opts).2 = None.
Proof. destruct (parseOptions defaultConfig opts).2; eauto. Qed.

Lemma parseOptions_signals opts : ∀ cfg,
  (parseOptions cfg opts).2 = None →
  signals (parseOptions cfg opts).1 = signals cfg ++ concat (signal_lists opts).
Proof.
  induction opts as [|opt opts IH]; intros cfg Hp.
  - simpl. by rewrite app_nil_r.
  - destruct (option_ok opt) eqn:Hopt.
    + rewrite (parseOptions_cons_ok _ _ _ Hopt) in *. rewrite (IH _ Hp). simpl.
      rewrite <- app_assoc. f_equal. unfold signal_lists. simpl.
      case_match; simpl; [|done]. by rewrite app_nil_r.
    + destruct (parseOptions_cons_bad cfg opt opts Hopt) as (e & Hp' & _).
      by rewrite Hp' in Hp.
Qed.

Lemma Start_signals opts rte0 :
  (parseOptions defaultConfig opts).2 = None →
  signals (Start_init opts rte0).1 =
  [Interrupt; SIGINT; SIGTERM] ++ concat (signal_lists opts).
Proof. intros Hp. by rewrite Start_init_cfg, parseOptions_signals. Qed.

Lemma Start_cap N M opts rte0 evs s :
  Start N M opts rte0 evs = Some s → (length (fnErrs s) ≤ 1)%nat.
Proof.
  unfold Start.
  assert (length (fnErrs (Start_init opts rte0).2) ≤ 1)%nat as Hinit.
  { unfold Start_init. destruct (parseOptions defaultConfig opts) as [cfg [e|]]; simpl; lia. }
  revert Hinit. generalize (Start_init opts rte0).2 as s0. generalize (Start_init opts rte0).1 as cfg.
  intros cfg s0. revert s0.
  induction evs as [|ev evs IH]; intros s0 Hcap Hx; simpl in Hx.
  - by simplify_eq.
  - apply bind_Some in Hx as (s1 & Hs & Hx). apply (IH s1); [|done].
    exact (step_cap _ _ _ _ _ _ Hs Hcap).
Qed.

(** ** Startup failure *)

(** C2 (amended): the startup functions are called one at a time in
    declaration order, each after the one before it returned nil.  Once the
    function at position [i] has returned a non-nil error [x], the calls of
    startup functions are exactly those of positions 0 to [i] and stay so,
    no shutdown function is ever called, and the ExitReason Start returns
    has nothing but [ErrStartup] set.  When the select of Start takes the
    report, as it does once the report is sent and must while the startup
    context is not done, [ErrStartup] is [x].  When the deadline of the
    startup context has passed, which takes a configured startup timeout,
    the select can take the Done case instead, and [ErrStartup] is then the
    deadline error.  There is no other outcome in which [ErrStartup] is not
    [context.Canceled]. *)
Theorem startup_failure_stops_startup N M opts rte0 evs s :
  Start N M opts rte0 evs = Some s →
  (∃ k tail, stLog s = calls_done 0 (replicate k None) ++ tail ∧ (k ≤ N)%nat ∧
     (tail = [] ∨ (k < N)%nat ∧
        (tail = [Invoke k] ∨ ∃ x, tail = [Invoke k; Return k (Some x)]))) ∧
  ∀ i x, Return i (Some x) ∈ stLog s →
    stLog s = calls_done 0 (replicate i None) ++ [Invoke i; Return i (Some x)] ∧
    (i < N)%nat ∧ sdW s = DWNone ∧ sdLog s = [] ∧
    (pc s = MStartupSelect →
       (∀ s', step N M (Start_init opts rte0).1 EvRecvFnErrs s = Some s' →
          result s' = Some (set_ErrStartup (Some x) emptyExitReason)) ∧
       (fnErrs s ≠ [] →
          ∃ s', Start N M opts rte0 (evs ++ [EvRecvFnErrs]) = Some s' ∧
                result s' = Some (set_ErrStartup (Some x) emptyExitReason)) ∧
       (ctxErr (stCtx s) = None →
          step N M (Start_init opts rte0).1 EvCtxDone s = None) ∧
       (ctxErr (stCtx s) = Some DeadlineExceeded →
          0 < startupTimeout (Start_init opts rte0).1 ∧
          ∃ s', Start N M opts rte0 (evs ++ [EvCtxDone]) = Some s' ∧
                result s' = Some (set_ErrStartup (Some DeadlineExceeded) emptyExitReason))) ∧
    ∀ r, result s = Some r →
      r = set_ErrStartup (ErrStartup r) emptyExitReason ∧
      ErrStartup r ≠ None ∧
      (ErrStartup r ≠ Some Canceled →
       ErrStartup r = Some x ∨
       (ErrStartup r = Some DeadlineExceeded ∧
        0 < startupTimeout (Start_init opts rte0).1)).
Proof.
  intros Hs. pose proof (Start_Inv _ _ _ _ _ _ Hs) as [HstL HstB HsdL _ HK Hmain]. split.
  - rewrite HstL. destruct (stW s) as [|k|k|k x|k x|k x| |]; simpl in *.
    + exists 0%nat, []. split_and!; [done | lia | by left].
    + exists k, []. rewrite app_nil_r. split_and!; [done | lia | by left].
    + exists k, [Invoke k]. split_and!; [done | lia | right; eauto].
    + exists k, [Invoke k; Return k (Some x)]. split_and!; [done | lia | right; eauto].
    + exists k, [Invoke k; Return k (Some x)]. split_and!; [done | lia | right; eauto].
    + exists k, [Invoke k; Return k (Some x)]. split_and!; [done | lia | right; eauto].
    + exists N, []. rewrite app_nil_r. split_and!; [done | lia | by left].
    + exists N, []. rewrite app_nil_r. split_and!; [done | lia | by left].
  - intros i x Hin.
    assert ((parseOptions defaultConfig opts).2 = None) as Hp.
    { destruct (parse_cases opts) as [[e Hp]|Hp]; [|done].
      destruct (Start_parse_failure _ _ _ _ _ _ _ Hp Hs) as (_ & _ & _ & _ & HL & _).
      rewrite HL in Hin. by apply elem_of_nil in Hin. }
    pose proof (Start_Wiring _ _ _ _ _ _ Hp Hs) as HW.
    rewrite HstL in Hin. apply Return_st_shape in Hin as [Hsh Hw].
    rewrite HstL, Hsh.
    assert (stW s ≠ SWEnd ∧ stW s ≠ SWNone ∧ (i < N)%nat ∧
            (∀ y, st_sent (stW s) = [Some y] → y = x) ∧
            (st_sent (stW s) = [] ∨ st_sent (stW s) = [Some x]))
      as (HnE & HnN & Hi & Hsent & Hsent').
    { destruct Hw as [Hw|[Hw|Hw]]; rewrite Hw in *; simpl in *;
        split_and!; try done; try (by left); try (by right); intros; by simplify_eq. }
    assert (sdW s = DWNone) as Hsd.
    { by apply (main_ok_no_shutdown M). }
    split_and!; [done | done | done | by rewrite HsdL, Hsd | |].
    { intros Hpc. unfold main_ok in Hmain. rewrite Hpc in Hmain.
      destruct Hmain as (Her & _ & _ & _ & Hfn). split_and!.
      - intros s' Hs'. simpl in Hs'. rewrite Hpc in Hs'.
        apply bind_Some in Hs' as ([e buf] & Hrecv%recv_Some & Hs').
        rewrite Hfn in Hrecv. apply (inj Some) in Hs' as <-.
        destruct Hw as [Hw|[Hw|Hw]]; rewrite Hw in Hrecv; simpl in Hrecv;
          [done | |]; injection Hrecv as <- <-;
          unfold result, after_startup; simpl; by rewrite Her.
      - intros Hne. rewrite (Start_app _ _ _ _ _ _ _ Hs). simpl. rewrite Hpc.
        destruct Hsent' as [Hnil|Hx]; [by rewrite Hfn, Hnil in Hne|].
        rewrite Hfn, Hx. simpl. eexists. split; [done|].
        unfold result, after_startup. simpl. by rewrite Her.
      - intros Hc. simpl. by rewrite Hpc, Hc.
      - intros Hc. split.
        { destruct HK as [HK|HK]; [by rewrite HK in Hc | done]. }
        rewrite (Start_app _ _ _ _ _ _ _ Hs). simpl. rewrite Hpc, Hc. simpl.
        eexists. split; [done|]. unfold result, after_startup. simpl. by rewrite Her. }
    intros r [Hpc ->]%result_Some. unfold main_ok in Hmain. rewrite Hpc in Hmain.
    destruct Hmain as [(y & Her & _ & _ & Hc)|(_ & ? & _)]; [|done].
    rewrite Her. simpl. split_and!; [done | done |]. intros Hnc.
    destruct Hc as [?|[Hc|[Hc _]]]; [done | right | left].
    + destruct y as [m| |].
      * by destruct (wir_ctxErr _ _ HW m).
      * done.
      * split; [done|]. destruct HK as [HK|HK]; [by rewrite HK in Hc | done].
    + by rewrite (Hsent y Hc).
Qed.

(** ** Start: the phases *)

Lemma step_trigger_taken N M cfg ev s s' :
  step N M cfg ev s = Some s' →
  before_trigger (pc s) = true → before_trigger (pc s') = false →
  ev = EvRecvRte ∨ ev = EvRecvSig ∨ ErrStartup (er s') ≠ None.
Proof.
  intros Hs Hb Ha. destruct ev; step_inv Hs; step_goal; auto.
  all: right; right; simpl.
  all: match goal with H : is_nil ?e = false |- _ => by destruct e end.
Qed.

Lemma exec_trigger_taken N M cfg evs : ∀ s s',
  exec N M cfg evs s = Some s' →
  before_trigger (pc s) = true → before_trigger (pc s') = false →
  ErrStartup (er s') = None →
  EvRecvRte ∈ evs ∨ EvRecvSig ∈ evs.
Proof.
  induction evs as [|ev evs IH]; intros s s' Hx Hb Ha Hnil; simpl in Hx.
  - simplify_eq. congruence.
  - apply bind_Some in Hx as (s1 & Hs & Hx).
    destruct (before_trigger (pc s1)) eqn:Hb1.
    + destruct (IH _ _ Hx Hb1 Ha Hnil) as [?|?]; [left | right]; by apply elem_of_cons; right.
    + destruct (step_trigger_taken _ _ _ _ _ _ Hs Hb Hb1) as [->|[->|Hne]].
      * left. by apply elem_of_cons; left.
      * right. by apply elem_of_cons; left.
      * destruct (exec_after_trigger _ _ _ _ _ _ Hx Hb1) as (_ & _ & _ & Heq). congruence.
Qed.

(** X6: a shutdown function is called only after every startup function has
    been called in declaration order and has returned nil, and after Start
    has left its second select. *)
Theorem shutdown_runs_only_after_startup_and_trigger N M opts rte0 evs s :
  Start N M opts rte0 evs = Some s → sdLog s ≠ [] →
  stLog s = calls_done 0 (replicate N None) ∧
  ErrStartup (er s) = None ∧
  before_trigger (pc s) = false ∧
  (EvRecvRte ∈ evs ∨ EvRecvSig ∈ evs).
Proof.
  intros Hs Hne. pose proof (Start_Inv _ _ _ _ _ _ Hs) as [HstL _ HsdL _ _ Hmain].
  assert (sdW s ≠ DWNone) as Hsd by (intros Hsd; by rewrite Hsd in HsdL).
  assert (stW s = SWEnd ∧ ErrStartup (er s) = None ∧ before_trigger (pc s) = false)
    as (Hst & Hnil & Hb).
  { unfold main_ok in Hmain. destruct (pc s); simpl.
    - by destruct Hmain as (_ & ? & _).
    - by destruct Hmain as (_ & ? & _).
    - by destruct Hmain as ([? _] & ? & _).
    - by destruct Hmain as [(x & _ & ? & _)|([? _] & ? & _)]. }
  split_and!; [by rewrite HstL, Hst | done | done |].
  destruct (parse_cases opts) as [[e Hp]|Hp].
  - destruct (Start_parse_failure _ _ _ _ _ _ _ Hp Hs) as (_ & _ & _ & ? & _). done.
  - unfold Start in Hs. apply (exec_trigger_taken _ _ _ _ _ _ Hs); [|done..].
    by rewrite (Start_init_ok _ _ Hp).
Qed.

(** X7: Start returns without a startup error only after it has received a
    shutdown request from [rte] or a signal from [osSig]. *)
Theorem Start_returns_only_after_trigger N M opts rte0 evs s r :
  Start N M opts rte0 evs = Some s → result s = Some r → ErrStartup r = None →
  EvRecvRte ∈ evs ∨ EvRecvSig ∈ evs.
Proof.
  intros Hs [Hpc ->]%result_Some Hnil.
  destruct (parse_cases opts) as [[e Hp]|Hp].
  - destruct (Start_parse_failure _ _ _ _ _ _ _ Hp Hs) as (_ & Her & _).
    by rewrite Her in Hnil.
  - unfold Start in Hs. apply (exec_trigger_taken _ _ _ _ _ _ Hs); [| |done].
    + by rewrite (Start_init_ok _ _ Hp).
    + by rewrite Hpc.
Qed.

(** X8: with no shutdown function, Start returns as soon as it has taken a
    trigger: no shutdown function is called, the loop that collects reports
    is never entered, and [ErrsShutdown] is empty, whatever the shutdown
    timeout. *)
Theorem Start_without_shutdown_functions N opts rte0 evs s :
  Start N 0 opts rte0 evs = Some s →
  sdLog s = [] ∧ rxLog s = [] ∧ (∀ i, pc s ≠ MCollect i) ∧
  (∀ r, result s = Some r → ErrsShutdown r = []) ∧
  (pc s = MTrigger → ∀ ev s', ev = EvRecvRte ∨ ev = EvRecvSig →
     step N 0 (Start_init opts rte0).1 ev s = Some s' → result s' = Some (er s')).
Proof.
  intros Hs. pose proof (Start_Inv _ _ _ _ _ _ Hs) as [_ _ HsdL HsdB _ Hmain].
  assert (rxLog s = []) as Hrx.
  { unfold main_ok in Hmain. destruct (pc s).
    - by destruct Hmain as (_ & _ & ? & _).
    - by destruct Hmain as (_ & _ & ? & _).
    - destruct Hmain as (_ & _ & _ & _ & ? & _). lia.
    - destruct Hmain as [(x & _ & _ & ? & _)|(_ & _ & _ & [[? _]|[? _]])];
        [done | by apply length_zero_iff_nil | lia]. }
  assert (sdLog s = []) as HL.
  { rewrite HsdL. destruct (sdW s); simpl in *; [done | | lia | lia |].
    - destruct HsdB as [Hl ?]. assert (i = 0)%nat as -> by lia.
      apply length_zero_iff_nil in Hl. by rewrite Hl.
    - apply length_zero_iff_nil in HsdB. by rewrite HsdB. }
  split_and!; [done | done | | |].
  - intros i Hpc. unfold main_ok in Hmain. rewrite Hpc in Hmain.
    destruct Hmain as (_ & _ & _ & _ & ? & _). lia.
  - intros r [Hpc ->]%result_Some. unfold main_ok in Hmain. rewrite Hpc in Hmain.
    destruct Hmain as [(x & -> & _)|(_ & _ & _ & [[_ ->]|[? _]])]; [done | | lia].
    by rewrite Hrx.
  - intros Hpc ev s' [->| ->] Hstep; step_inv Hstep; done.
Qed.

(** ** Start: signals and shutdown requests *)

Lemma signals_of_cons ev evs :
  signals_of (ev :: evs) = signals_of [ev] ++ signals_of evs.
Proof. by destruct ev. Qed.

Lemma requests_of_cons ev evs :
  requests_of (ev :: evs) = requests_of [ev] ++ requests_of evs.
Proof. by destruct ev. Qed.

Lemma head_try_send {A} (x : A) buf l :
  head (Chan.try_send 1 x buf ++ l) = head (buf ++ x :: l).
Proof. by destruct buf. Qed.

Lemma step_first_signal N M cfg ev s s' sig :
  step N M cfg ev s = Some s' → OsSignal (er s') = Some sig →
  OsSignal (er s) = Some sig ∨
  (before_trigger (pc s) = true ∧ head (osSig s) = Some sig).
Proof.
  intros Hs. destruct ev; step_inv Hs; step_goal; auto.
  all: intros [= ->]; right; split; [done|].
  all: match goal with H : osSig _ = _ :: _ |- _ => by rewrite H end.
Qed.

Lemma step_osSig_head N M cfg ev s s' l :
  step N M cfg ev s = Some s' → before_trigger (pc s') = true →
  head (osSig s' ++ l) = head (osSig s ++ signals_of [ev] ++ l).
Proof.
  intros Hs. destruct ev; step_inv Hs; step_goal.
  intros _. apply head_try_send.
Qed.

Lemma exec_first_signal N M cfg sig evs : ∀ s s',
  exec N M cfg evs s = Some s' → OsSignal (er s') = Some sig →
  OsSignal (er s) = Some sig ∨
  (before_trigger (pc s) = true ∧ head (osSig s ++ signals_of evs) = Some sig).
Proof.
  induction evs as [|ev evs IH]; intros s s' Hx Hsig; simpl in Hx.
  - simplify_eq. by left.
  - apply bind_Some in Hx as (s1 & Hs & Hx).
    destruct (IH _ _ Hx Hsig) as [H1|[Hb Hhd]].
    + destruct (step_first_signal _ _ _ _ _ _ _ Hs H1) as [?|[Hb Hhd]]; [by left|].
      right. split; [done|]. by destruct (osSig s); simplify_eq/=.
    + right. split; [by apply (step_pc_before _ _ _ _ _ _ Hs)|].
      rewrite <- Hhd, (step_osSig_head _ _ _ _ _ _ _ Hs Hb).
      by rewrite (signals_of_cons ev evs).
Qed.

(** X9: of the monitored signals that package [os/signal] passes on to
    [osSig], in the order in which it passes them on, Start records the
    first.  A signal passed on while [osSig] holds one is dropped, and once
    Start has left its second select nothing changes the signal it has
    recorded. *)
Theorem Start_records_first_signal N M opts rte0 evs s :
  Start N M opts rte0 evs = Some s →
  (∀ sig, OsSignal (er s) = Some sig → head (signals_of evs) = Some sig) ∧
  (∀ sig s', osSig s ≠ [] →
     Start N M opts rte0 (evs ++ [EvSignal sig]) = Some s' →
     osSig s' = osSig s ∧ er s' = er s ∧ pc s' = pc s) ∧
  (∀ evs' s', before_trigger (pc s) = false →
     Start N M opts rte0 (evs ++ evs') = Some s' →
     OsSignal (er s') = OsSignal (er s)).
Proof.
  intros Hs. split_and!.
  - intros sig Hsig. unfold Start in Hs.
    destruct (exec_first_signal _ _ _ _ _ _ _ Hs Hsig) as [H0|[_ Hhd]].
    + unfold Start_init in H0. by destruct (parseOptions defaultConfig opts) as [cfg [e|]].
    + unfold Start_init in Hhd. by destruct (parseOptions defaultConfig opts) as [cfg [e|]].
  - intros sig s' Hne Hs'. rewrite (Start_app _ _ _ _ _ _ _ Hs) in Hs'. simpl in Hs'.
    destruct (notified s && _); simplify_eq/=.
    split_and!; [|done..]. by destruct (osSig s).
  - intros evs' s' Hb Hs'. rewrite (Start_app _ _ _ _ _ _ _ Hs) in Hs'.
    by destruct (exec_after_trigger _ _ _ _ _ _ Hs' Hb) as (_ & ? & _).
Qed.

Lemma step_rte_head N M cfg ev s s' l :
  step N M cfg ev s = Some s' → ev ≠ EvRecvRte →
  head (rte s' ++ l) = head (rte s ++ requests_of [ev] ++ l).
Proof.
  intros Hs Hne. destruct ev; step_inv Hs; step_goal.
  apply head_try_send.
Qed.

Lemma exec_first_request N M cfg evs : ∀ s s',
  exec N M cfg evs s = Some s' → EvRecvRte ∈ evs →
  head (rte s ++ requests_of evs) = Some (ErrRuntime (er s')).
Proof.
  induction evs as [|ev evs IH]; intros s s' Hx Hin; simpl in Hx.
  - by apply elem_of_nil in Hin.
  - apply bind_Some in Hx as (s1 & Hs & Hx).
    destruct (decide (ev = EvRecvRte)) as [->|Hne].
    + step_inv Hs.
      match goal with H : rte s = _ |- _ => rewrite H end. simpl.
      match type of Hx with exec _ _ _ _ ?s1 = _ =>
        destruct (exec_after_trigger _ _ _ _ s1 _ Hx) as (_ & _ & -> & _) end.
      all: by step_goal.
    + apply elem_of_cons in Hin as [?|Hin]; [done|].
      rewrite <- (IH _ _ Hx Hin), (step_rte_head _ _ _ _ _ _ _ Hs Hne).
      by rewrite (requests_of_cons ev evs).
Qed.

(** X10: when Start has taken a shutdown request from [rte], the error it
    records is that of the first request: the one the channel held when
    Start was called if there was one, else the first call of Shutdown, be
    it made during startup. *)
Theorem Start_records_first_shutdown_request N M opts rte0 evs s :
  Start N M opts rte0 evs = Some s → EvRecvRte ∈ evs →
  head (rte0 ++ requests_of evs) = Some (ErrRuntime (er s)).
Proof.
  intros Hs Hin. unfold Start in Hs.
  rewrite <- (exec_first_request _ _ _ _ _ _ Hs Hin).
  unfold Start_init. by destruct (parseOptions defaultConfig opts) as [cfg [e|]].
Qed.

(** X11: the signal Start records is one of the three default signals or a
    signal of a signals option. *)
Theorem recorded_signal_is_configured N M opts rte0 evs s sig :
  Start N M opts rte0 evs = Some s → OsSignal (er s) = Some sig →
  sig ∈ [Interrupt; SIGINT; SIGTERM] ++ concat (signal_lists opts).
Proof.
  intros Hs Hsig. destruct (parse_cases opts) as [[e Hp]|Hp].
  - destruct (Start_parse_failure _ _ _ _ _ _ _ Hp Hs) as (_ & Her & _).
    by rewrite Her in Hsig.
  - rewrite <- (Start_signals opts rte0 Hp).
    by apply (wir_OsSignal _ _ (Start_Wiring _ _ _ _ _ _ Hp Hs)).
Qed.

(** X12: while Start waits in its second select with no signal pending, a
    default signal or a signal of a signals option that is delivered is the
    one Start can take, and taking it starts the shutdown with that signal
    recorded and no runtime error. *)
Theorem monitored_signal_triggers_shutdown N M opts rte0 evs s sig :
  Start N M opts rte0 evs = Some s → pc s = MTrigger → osSig s = [] →
  sig ∈ [Interrupt; SIGINT; SIGTERM] ++ concat (signal_lists opts) →
  ∃ s1 s2, step N M (Start_init opts rte0).1 (EvSignal sig) s = Some s1 ∧
           step N M (Start_init opts rte0).1 EvRecvSig s1 = Some s2 ∧
           er s2 = set_OsSignal (Some sig) emptyExitReason ∧
           before_trigger (pc s2) = false ∧ sdW s2 = DWLoop 0.
Proof.
  intros Hs Hpc Hempty Hin. pose proof (Start_Inv _ _ _ _ _ _ Hs) as [_ _ _ _ _ Hmain].
  unfold main_ok in Hmain. rewrite Hpc in Hmain. destruct Hmain as (Her & _).
  destruct (parse_cases opts) as [[e Hp]|Hp].
  { destruct (Start_parse_failure _ _ _ _ _ _ _ Hp Hs) as (? & _). congruence. }
  pose proof (Start_Wiring _ _ _ _ _ _ Hp Hs) as HW.
  rewrite <- (Start_signals opts rte0 Hp) in Hin.
  assert (notified s = true) as Hnot.
  { apply (wir_notified _ _ HW); [by rewrite Hpc | by rewrite Her]. }
  eexists _, _. split_and!.
  - simpl. rewrite Hnot, bool_decide_eq_true_2 by done. simpl. by rewrite Hempty.
  - simpl. by rewrite Hpc.
  - unfold begin_shutdown, collect_head, return_er. simpl. rewrite Her.
    by destruct (0 <? M)%nat.
  - unfold begin_shutdown, collect_head, return_er. simpl. by destruct (0 <? M)%nat.
  - unfold begin_shutdown, collect_head, return_er. simpl. by destruct (0 <? M)%nat.
Qed.

(** X13: Start never stops the delivery of signals to [osSig]: once the
    shutdown has begun, and after Start has returned, a monitored signal is
    stored in the channel or dropped, and it changes nothing else. *)
Theorem signals_after_trigger_change_nothing N M opts rte0 evs s sig :
  Start N M opts rte0 evs = Some s →
  before_trigger (pc s) = false → ErrStartup (er s) = None →
  sig ∈ [Interrupt; SIGINT; SIGTERM] ++ concat (signal_lists opts) →
  ∃ s', step N M (Start_init opts rte0).1 (EvSignal sig) s = Some s' ∧
        s' = set_osSig (osSig s') s ∧ (osSig s ≠ [] → osSig s' = osSig s).
Proof.
  intros Hs Hb Hnil Hin.
  destruct (parse_cases opts) as [[e Hp]|Hp].
  { destruct (Start_parse_failure _ _ _ _ _ _ _ Hp Hs) as (_ & Her & _).
    by rewrite Her in Hnil. }
  pose proof (Start_Wiring _ _ _ _ _ _ Hp Hs) as HW.
  rewrite <- (Start_signals opts rte0 Hp) in Hin.
  assert (notified s = true) as Hnot.
  { apply (wir_notified _ _ HW); [|done]. intros Hpc. by rewrite Hpc in Hb. }
  eexists. split_and!.
  - simpl. by rewrite Hnot, bool_decide_eq_true_2 by done.
  - done.
  - simpl. by destruct (osSig s).
Qed.

(** ** Start: the goroutines it leaves behind *)

Lemma Invoke_calls_done_lt i k rs :
  Invoke i ∈ calls_done k rs → (k ≤ i < k + length rs)%nat.
Proof.
  revert k; induction rs as [|r rs IH]; intros k.
  - by intros ?%elem_of_nil.
  - change (calls_done k (r :: rs)) with (Invoke k :: Return k r :: calls_done (S k) rs).
    intros [Heq|[Heq|Hin]%elem_of_cons]%elem_of_cons; simplify_eq; simpl; [lia|].
    apply IH in Hin. lia.
Qed.

Lemma Invoke_sd_shape M rs w i :
  sd_bound M rs w → Invoke i ∈ sd_shape rs w → (i ≤ length rs)%nat.
Proof.
  destruct w; simpl; intros Hb Hin.
  - by apply elem_of_nil in Hin.
  - apply Invoke_calls_done_lt in Hin. lia.
  - apply elem_of_app in Hin as [Hin|Hin].
    + apply Invoke_calls_done_lt in Hin. lia.
    + apply list_elem_of_singleton in Hin. simplify_eq. lia.
  - apply Invoke_calls_done_lt in Hin. rewrite length_app in Hin. simpl in Hin. lia.
  - apply Invoke_calls_done_lt in Hin. lia.
Qed.

Lemma Invoke_sdLog_bound N M opts rte0 evs s i :
  Start N M opts rte0 evs = Some s → Invoke i ∈ sdLog s →
  (i ≤ length (rxLog s) + 1)%nat.
Proof.
  intros Hs Hin. pose proof (Start_cap _ _ _ _ _ _ Hs) as Hcap.
  destruct (Start_Inv _ _ _ _ _ _ Hs) as [_ _ HsdL HsdB _ _].
  rewrite HsdL in Hin. apply (Invoke_sd_shape M _ _ _ HsdB) in Hin.
  rewrite length_app in Hin. lia.
Qed.

(** X14: a shutdown function is called only when Start has received the
    reports of all the shutdown functions before it but one at most.  Once
    Start has returned, whatever happens next leaves its ExitReason as it
    is and Start receives nothing more: so when Start has returned on the
    shutdown timeout with J reports received, no shutdown function from
    position J+2 on is ever called. *)
Theorem shutdown_calls_stop_after_return N M opts rte0 evs s :
  Start N M opts rte0 evs = Some s →
  (∀ i, Invoke i ∈ sdLog s → (i ≤ length (rxLog s) + 1)%nat) ∧
  (∀ r evs' s', result s = Some r →
     Start N M opts rte0 (evs ++ evs') = Some s' →
     result s' = Some r ∧ rxLog s' = rxLog s ∧
     ∀ i, Invoke i ∈ sdLog s' → (i ≤ length (rxLog s) + 1)%nat).
Proof.
  intros Hs. split.
  - intros i. by apply (Invoke_sdLog_bound _ _ _ _ _ _ _ Hs).
  - intros r evs' s' [Hpc ->]%result_Some Hs'.
    pose proof Hs' as Hx. rewrite (Start_app _ _ _ _ _ _ _ Hs) in Hx.
    destruct (exec_returned _ _ _ _ _ _ Hx Hpc) as (Hpc' & Her & Hrx).
    split_and!; [unfold result; by rewrite Hpc', Her | done |].
    intros i Hin. rewrite <- Hrx. by apply (Invoke_sdLog_bound _ _ _ _ _ _ _ Hs').
Qed.

Lemma step_blocked N M cfg ev s s' i e :
  step N M cfg ev s = Some s' →
  pc s = MReturned → sdW s = DWSend i e → fnErrs s ≠ [] →
  pc s' = MReturned ∧ sdW s' = DWSend i e ∧ fnErrs s' = fnErrs s.
Proof.
  intros Hs Hpc Hw Hne. destruct ev; step_inv Hs; step_goal.
  all: destruct (fnErrs s); simpl in *; [done | lia].
Qed.

Lemma exec_blocked N M cfg i e evs : ∀ s s',
  exec N M cfg evs s = Some s' →
  pc s = MReturned → sdW s = DWSend i e → fnErrs s ≠ [] →
  sdW s' = DWSend i e ∧ fnErrs s' = fnErrs s.
Proof.
  induction evs as [|ev evs IH]; intros s s' Hx Hpc Hw Hne; simpl in Hx.
  - by simplify_eq.
  - apply bind_Some in Hx as (s1 & Hs & Hx).
    destruct (step_blocked _ _ _ _ _ _ _ _ Hs Hpc Hw Hne) as (Hpc1 & Hw1 & Hf1).
    destruct (IH _ _ Hx Hpc1 Hw1) as [? ?]; [by rewrite Hf1|]. split; congruence.
Qed.

(** X15: once Start has returned, a shutdown goroutine that waits to send
    the result of a shutdown function on a full [fnErrs] waits for ever: no
    one receives from the channel any more. *)
Theorem shutdown_goroutine_blocks_after_return N M opts rte0 evs s r i e :
  Start N M opts rte0 evs = Some s → result s = Some r →
  sdW s = DWSend i e → fnErrs s ≠ [] →
  step N M (Start_init opts rte0).1 EvShutdownNext s = None ∧
  ∀ evs' s', Start N M opts rte0 (evs ++ evs') = Some s' →
    sdW s' = DWSend i e ∧ fnErrs s' = fnErrs s ∧ Return i e ∈ sdLog s' ∧
    ∀ j, Invoke j ∈ sdLog s' → (j ≤ i)%nat.
Proof.
  intros Hs [Hpc ->]%result_Some Hw Hne. split.
  - simpl. rewrite Hw. unfold Chan.send. by destruct (fnErrs s).
  - intros evs' s' Hs'. pose proof Hs' as Hx. rewrite (Start_app _ _ _ _ _ _ _ Hs) in Hx.
    destruct (exec_blocked _ _ _ _ _ _ _ _ Hx Hpc Hw Hne) as [Hw' Hf'].
    destruct (Start_Inv _ _ _ _ _ _ Hs') as [_ _ HsdL HsdB _ _].
    rewrite Hw' in HsdL, HsdB. simpl in HsdL, HsdB. destruct HsdB as [Hlen Hlt].
    split_and!; [done | done | |].
    + rewrite HsdL, calls_done_snoc, Hlen. apply elem_of_app. right.
      apply elem_of_cons. right. by apply elem_of_cons; left.
    + intros j Hin. rewrite HsdL in Hin. apply Invoke_calls_done_lt in Hin.
      rewrite length_app in Hin. simpl in Hin. lia.
Qed.

(** X16: the startup goroutine never waits: whenever it is at a statement
    of its own, the statement can run, be it a send on [fnErrs] and has
    Start returned or not. *)
Theorem startup_goroutine_never_blocks N M opts rte0 evs s :
  Start N M opts rte0 evs = Some s → startup_at_statement (stW s) = true →
  is_Some (step N M (Start_init opts rte0).1 EvStartupNext s).
Proof.
  intros Hs Hat. destruct (parse_cases opts) as [[e Hp]|Hp].
  { destruct (Start_parse_failure _ _ _ _ _ _ _ Hp Hs) as (_ & _ & Hst & _).
    by rewrite Hst in Hat. }
  pose proof (Start_Wiring _ _ _ _ _ _ Hp Hs) as HW.
  destruct (Start_Inv _ _ _ _ _ _ Hs) as [_ _ _ _ _ Hmain].
  assert (fnErrs s = [] ∨ fnErrs s = st_sent (stW s)) as Hsent.
  { apply (wir_sent _ _ HW), (main_ok_no_shutdown M); [done|].
    intros Hst. by rewrite Hst in Hat. }
  simpl. destruct (stW s); simpl in *; try done.
  - by case_match.
  - by destruct Hsent as [-> | ->].
  - by destruct Hsent as [-> | ->].
Qed.

(** X17: where the startup error of the ExitReason comes from: it is the
    error of parseOptions, and then no function was called; or an error that
    a startup function returned; or, with a startup timeout configured, an
    error of the startup context: its deadline error, or [Canceled], and
    that only after a startup function has returned an error. *)
Theorem ErrStartup_origin N M opts rte0 evs s r x :
  Start N M opts rte0 evs = Some s → result s = Some r → ErrStartup r = Some x →
  ((parseOptions defaultConfig opts).2 = Some x ∧ stLog s = [] ∧ sdLog s = []) ∨
  ((parseOptions defaultConfig opts).2 = None ∧
   ((∃ i, Return i (Some x) ∈ stLog s) ∨
    (0 < startupTimeout (Start_init opts rte0).1 ∧
     (x = DeadlineExceeded ∨ (x = Canceled ∧ ∃ i y, Return i (Some y) ∈ stLog s))))).
Proof.
  intros Hs [Hpc ->]%result_Some Hx. destruct (parse_cases opts) as [[e Hp]|Hp].
  { destruct (Start_parse_failure _ _ _ _ _ _ _ Hp Hs) as (_ & Her & _ & _ & ? & ? & _).
    left. rewrite Her in Hx. simpl in Hx. by simplify_eq. }
  right. split; [done|].
  pose proof (Start_Wiring _ _ _ _ _ _ Hp Hs) as HW.
  destruct (Start_Inv _ _ _ _ _ _ Hs) as [HstL _ _ _ HK Hmain].
  unfold main_ok in Hmain. rewrite Hpc in Hmain.
  destruct Hmain as [(y & Her & _ & _ & Hc)|([Hnil _] & _)]; [|congruence].
  assert (y = x) as -> by (rewrite Her in Hx; simpl in Hx; congruence).
  destruct Hc as [Hst|[Hc|[Hsent _]]].
  - by destruct (wir_started _ _ HW).
  - right. split.
    { destruct HK as [HK|HK]; [by rewrite HK in Hc | done]. }
    destruct x as [m| |].
    + by destruct (wir_ctxErr _ _ HW m).
    + right. split; [done|]. apply (wir_canceled _ _ HW). by left.
    + by left.
  - left. rewrite HstL. by apply (st_sent_Return N _ x []).
Qed.

(** X18: with no shutdown timeout in the configuration, Start returns from
    the shutdown only when every shutdown function has been called, in
    declaration order, and has returned, and [ErrsShutdown] holds the
    errors they returned, in that order, and nothing else. *)
Theorem no_shutdown_timeout_waits_for_all N M opts rte0 evs s r :
  Start N M opts rte0 evs = Some s →
  shutdownTimeout (Start_init opts rte0).1 = 0 →
  result s = Some r → ErrStartup r = None →
  length (rxLog s) = M ∧ sdLog s = calls_done 0 (rxLog s) ∧
  ErrsShutdown r = nonnil (rxLog s).
Proof.
  intros Hs Ht [Hpc ->]%result_Some Hnil. destruct (parse_cases opts) as [[e Hp]|Hp].
  { destruct (Start_parse_failure _ _ _ _ _ _ _ Hp Hs) as (_ & Her & _).
    by rewrite Her in Hnil. }
  pose proof (Start_Wiring _ _ _ _ _ _ Hp Hs) as HW.
  destruct (Start_Inv _ _ _ _ _ _ Hs) as [_ _ HsdL HsdB _ Hmain].
  unfold main_ok in Hmain. rewrite Hpc in Hmain.
  destruct Hmain as [(y & Her & _)|(_ & _ & Hsd & [[Hlen Her]|(_ & _ & Hc)])].
  - by rewrite Her in Hnil.
  - split_and!; [done | | done].
    assert (fnErrs s = []) as Hf.
    { apply length_zero_iff_nil.
      assert (length (rxLog s ++ fnErrs s) ≤ M)%nat as Hle
        by (destruct (sdW s); simpl in HsdB; first [lia | congruence]).
      rewrite length_app in Hle. lia. }
    rewrite Hf, app_nil_r in HsdL, HsdB. rewrite HsdL.
    destruct (sdW s); simpl in *; [done | done | lia | lia | done].
  - destruct (wir_sdCtx _ _ HW) as [Hb|?]; [by rewrite Hb in Hc | lia].
Qed.

(** ** Start: the startup context and late shutdown requests *)

Lemma step_stCtx_done N M cfg ev s s' :
  step N M cfg ev s = Some s' →
  (∃ e, stCtx s = WithTimeout e) ∧ (pc s ≠ MStartupSelect → ctxErr (stCtx s) ≠ None) →
  (∃ e, stCtx s' = WithTimeout e) ∧ (pc s' ≠ MStartupSelect → ctxErr (stCtx s') ≠ None).
Proof.
  intros Hs [[e0 Hk] Hdone]. destruct ev; step_inv Hs; step_goal.
  all: rewrite ?Hk in *; simpl in *.
  all: split; [destruct e0; by eexists |].
  all: first [ exact Hdone
             | by destruct e0
             | intros _; apply Hdone; congruence ].
Qed.

Lemma exec_stCtx_done N M cfg evs : ∀ s s',
  exec N M cfg evs s = Some s' →
  (∃ e, stCtx s = WithTimeout e) ∧ (pc s ≠ MStartupSelect → ctxErr (stCtx s) ≠ None) →
  (∃ e, stCtx s' = WithTimeout e) ∧ (pc s' ≠ MStartupSelect → ctxErr (stCtx s') ≠ None).
Proof.
  induction evs as [|ev evs IH]; intros s s' Hx HK; simpl in Hx.
  - by simplify_eq.
  - apply bind_Some in Hx as (s1 & Hs & Hx). eauto using step_stCtx_done.
Qed.

(** X23: with a startup timeout in the configuration, the context that the
    startup functions are given is done, cancelled or expired, as soon as
    Start has left its first select, also when the startup succeeded, and
    it is done from then on; with none, the context is
    [context.Background()], which is never done. *)
Theorem startup_context_ends_with_startup N M opts rte0 evs s :
  Start N M opts rte0 evs = Some s →
  (parseOptions defaultConfig opts).2 = None →
  (0 < startupTimeout (Start_init opts rte0).1 →
     (∃ e, stCtx s = WithTimeout e) ∧ (pc s ≠ MStartupSelect → ctxErr (stCtx s) ≠ None)) ∧
  (startupTimeout (Start_init opts rte0).1 ≤ 0 → stCtx s = Background).
Proof.
  intros Hs Hp. split.
  - intros Ht. unfold Start in Hs. apply (exec_stCtx_done _ _ _ _ _ _ Hs).
    rewrite (Start_init_ok _ _ Hp). simpl. unfold newCtx.
    rewrite (proj2 (Z.ltb_lt 0 _) Ht). split; [by eexists | done].
  - intros Ht. destruct (inv_stCtx _ _ _ _ (Start_Inv _ _ _ _ _ _ Hs)); [done | lia].
Qed.




(** ** Multi: goroutines and reports *)

(** X20: the goroutines of Multi never wait on their send: [errCh] has room
    for the report of each of them, also once the composed function has
    returned because its context is done. *)
Theorem Multi_goroutines_never_block K ctx0 evs s j e :
  Multi K ctx0 evs = Some s → workers s !! j = Some (MWSend e) →
  ∃ s', multi_step (MEvSend j) s = Some s' ∧
        workers s' !! j = Some MWEnd ∧ mpc s' = mpc s ∧
        reported s' = reported s ++ [(j, e)].
Proof.
  intros HI%Multi_MInv Hj.
  destruct (multi_send_never_blocks K s j e HI Hj) as [s' Hs']. exists s'.
  split; [done|]. simpl in Hs'. rewrite Hj in Hs'.
  apply bind_Some in Hs' as (buf & _ & ?). simplify_eq/=. split_and!; [|done..].
  apply list_lookup_insert_eq. by apply lookup_lt_Some in Hj.
Qed.

Lemma first_nonnil_None es : first_nonnil es = None → Forall (λ e : error, e = None) es.
Proof. induction es as [|[x|] es IH]; simpl; intros H; [done | done | auto]. Qed.

Lemma first_nonnil_elem es x : first_nonnil es = Some x → Some x ∈ es.
Proof.
  induction es as [|[y|] es IH]; simpl; intros H; [done | |].
  - simplify_eq. by apply elem_of_cons; left.
  - apply elem_of_cons; right. auto.
Qed.

(** X21: what a result of the composed function tells: nil only when each
    of the K functions has reported nil; an error only when it is the error
    of the context or an error that one of the functions reported. *)
Theorem Multi_result_sound K ctx0 evs s r :
  Multi K ctx0 evs = Some s → multi_result s = Some r →
  (r = None → length (reported s) = K ∧ Forall (λ p, p.2 = None) (reported s)) ∧
  (∀ x, r = Some x → mctx s = Some x ∨ ∃ j, (j, Some x) ∈ reported s).
Proof.
  intros HI%Multi_MInv Hr%multi_result_Some.
  pose proof (minv_main _ _ HI) as Hm. rewrite Hr in Hm.
  destruct Hm as [(Hc & -> & _)|[Hl ->]].
  - split; [done|]. intros x Hx. by left.
  - destruct (MInv_all_received _ _ HI Hl) as (_ & Hrep & _). split.
    + intros Hnil%first_nonnil_None. rewrite <- Hrep in Hnil.
      split; [by rewrite <- Hl, <- Hrep, length_fmap|].
      by apply Forall_fmap in Hnil.
    + intros x Hx%first_nonnil_elem. right. rewrite <- Hrep in Hx.
      apply list_elem_of_fmap in Hx as ([j e] & ? & Hin). simplify_eq/=. by exists j.
Qed.

Lemma reports_step ev s s' :
  multi_step ev s = Some s' →
  NoDup (reported s).*1 ∧ (∀ j, j ∈ (reported s).*1 ↔ workers s !! j = Some MWEnd) →
  NoDup (reported s').*1 ∧ (∀ j, j ∈ (reported s').*1 ↔ workers s' !! j = Some MWEnd).
Proof.
  intros Hs [Hnd Hiff]. destruct ev as [j e|j|why| |]; simpl in Hs.
  - destruct (workers s !! j) as [[| |]|] eqn:Hj; simplify_eq/=.
    split; [done|]. intros j'. rewrite Hiff. destruct (decide (j' = j)) as [->|Hne].
    + rewrite list_lookup_insert_eq by (by apply lookup_lt_Some in Hj).
      rewrite Hj. split; intros [=].
    + by rewrite list_lookup_insert_ne.
  - destruct (workers s !! j) as [[|e|]|] eqn:Hj; simplify_eq/=.
    apply bind_Some in Hs as (buf & _ & ?). simplify_eq/=.
    rewrite fmap_app. simpl. split.
    + apply NoDup_app. split_and!; [done | | apply NoDup_singleton].
      intros j' Hin ->%list_elem_of_singleton. apply Hiff in Hin. congruence.
    + intros j'. rewrite elem_of_app, list_elem_of_singleton, Hiff.
      destruct (decide (j' = j)) as [->|Hne].
      * rewrite list_lookup_insert_eq by (by apply lookup_lt_Some in Hj).
        split; [done | intros _; by right].
      * rewrite list_lookup_insert_ne by done. split; [by intros [?|?] | by left].
  - by simplify_eq/=.
  - destruct (mpc s); [|done].
    apply bind_Some in Hs as ([e buf] & _ & ?). by simplify_eq/=.
  - destruct (mpc s); [|done]. destruct (is_nil (mctx s)); by simplify_eq/=.
Qed.

Lemma reports_exec evs : ∀ s s',
  multi_exec evs s = Some s' →
  NoDup (reported s).*1 ∧ (∀ j, j ∈ (reported s).*1 ↔ workers s !! j = Some MWEnd) →
  NoDup (reported s').*1 ∧ (∀ j, j ∈ (reported s').*1 ↔ workers s' !! j = Some MWEnd).
Proof.
  induction evs as [|ev evs IH]; intros s s' Hx HR; simpl in Hx.
  - by simplify_eq.
  - apply bind_Some in Hx as (s1 & Hs & Hx). eauto using reports_step.
Qed.

(** X22: each function under Multi sends one report at most, and when K
    reports have been sent there is exactly one from each of the K
    functions. *)
Theorem Multi_one_report_per_function K ctx0 evs s :
  Multi K ctx0 evs = Some s →
  NoDup (reported s).*1 ∧
  (∀ j e, (j, e) ∈ reported s → (j < K)%nat ∧ workers s !! j = Some MWEnd) ∧
  (length (reported s) = K → (reported s).*1 ≡ₚ seq 0 K).
Proof.
  intros Hs. pose proof (Multi_MInv _ _ _ _ Hs) as HI.
  destruct (reports_exec evs (Multi_init K ctx0) s Hs) as [Hnd Hiff].
  { simpl. split; [apply NoDup_nil_2|]. intros j. split; [by intros ?%elem_of_nil|].
    by intros [? _]%lookup_replicate. }
  assert (∀ j, j ∈ (reported s).*1 → (j < K)%nat) as Hlt.
  { intros j Hin%Hiff. apply lookup_lt_Some in Hin. by rewrite (minv_workers _ _ HI) in Hin. }
  split_and!; [done | |].
  - intros j e Hin. assert (j ∈ (reported s).*1) as Hj.
    { apply list_elem_of_fmap. by exists (j, e). }
    split; [by apply Hlt | by apply Hiff].
  - intros Hl. apply NoDup_Permutation; [done | apply NoDup_seq |].
    intros j. rewrite elem_of_seq. split; [intros ?%Hlt; lia|]. intros [_ Hj].
    apply Hiff. rewrite (minv_ended _ _ HI), <- (minv_workers _ _ HI) in Hl.
    apply ended_all in Hl. rewrite <- (minv_workers _ _ HI) in Hj.
    destruct (lookup_lt_is_Some_2 _ _ Hj) as [w Hw].
    by rewrite (proj1 (Forall_lookup _ _) Hl j w Hw) in Hw.
Qed.

(** ** Start returns when nothing goes wrong *)

Section CanReturn.

Variables (N M : nat) (cfg : config).

Lemma leads_to_here s (P : state → Prop) : P s → leads_to N M cfg s P.
Proof. intros HP. by exists [], s. Qed.

Lemma leads_to_step ev s s1 (P : state → Prop) :
  quiet ev = true → step N M cfg ev s = Some s1 → leads_to N M cfg s1 P → leads_to N M cfg s P.
Proof.
  intros Hq Hs (evs & s' & Hall & Hx & HP). exists (ev :: evs), s'.
  split_and!; [simpl; by rewrite Hq | simpl; by rewrite Hs | done].
Qed.

Lemma leads_to_trans s (P Q : state → Prop) :
  Inv N M cfg s → leads_to N M cfg s P →
  (∀ s1, Inv N M cfg s1 → P s1 → leads_to N M cfg s1 Q) → leads_to N M cfg s Q.
Proof.
  intros HI (evs & s1 & Hall & Hx & HP) HQ.
  destruct (HQ s1 (Inv_exec _ _ _ _ _ _ HI Hx) HP) as (evs' & s' & Hall' & Hx' & HQ').
  exists (evs ++ evs'), s'. split_and!; [|by rewrite exec_app, Hx|done].
  rewrite forallb_app. by rewrite Hall, Hall'.
Qed.

Lemma startup_report_arrives : ∀ n s,
  Inv N M cfg s → pc s = MStartupSelect → (startup_fuel N (stW s) ≤ n)%nat →
  leads_to N M cfg s (λ s', pc s' ≠ MStartupSelect).
Proof.
  induction n as [|n IH]; intros s HI Hpc Hfuel.
  all: pose proof (inv_main _ _ _ _ HI) as Hmain; unfold main_ok in Hmain;
    rewrite Hpc in Hmain; destruct Hmain as (_ & _ & _ & Hst & Hfn).
  all: pose proof (inv_stBound _ _ _ _ HI) as HB.
  all: destruct (stW s) as [|i|i|i x|i x|i x| |] eqn:Hw; simpl in *; try lia; try done.
  all: try (eapply (leads_to_step EvRecvFnErrs s);
            [ done
            | simpl; rewrite Hpc, Hfn; simpl; reflexivity
            | apply leads_to_here; unfold after_startup; simpl; by repeat case_match ]).
  - destruct (step N M cfg EvStartupNext s) as [s1|] eqn:Hs1;
      [| simpl in Hs1; rewrite Hw in Hs1; by case_match].
    apply (leads_to_step EvStartupNext s s1); [done | done |].
    apply IH; [by apply (Inv_step _ _ _ EvStartupNext s) | |].
    + simpl in Hs1. rewrite Hw in Hs1. case_match; by simplify_eq/=.
    + simpl in Hs1. rewrite Hw in Hs1. case_match eqn:Hi; simplify_eq/=; [lia|].
      apply Nat.ltb_ge in Hi. lia.
  - apply (leads_to_step (EvStartupReturn None) s
             (set_stW (SWLoop (S i)) (log_st (Return i None) s)));
      [done | simpl; by rewrite Hw |].
    apply IH; [apply (Inv_step _ _ _ (EvStartupReturn None) s); [done|] | done |].
    + simpl. by rewrite Hw.
    + simpl. lia.
  - apply (leads_to_step EvStartupNext s (set_stW (SWCancel i x) (set_fnErrs [Some x] s)));
      [done | simpl; by rewrite Hw, Hfn |].
    apply IH; [apply (Inv_step _ _ _ EvStartupNext s); [done|] | done |].
    + simpl. by rewrite Hw, Hfn.
    + simpl. lia.
  - apply (leads_to_step EvStartupNext s (set_stW SWEnd (set_fnErrs [None] s)));
      [done | simpl; by rewrite Hw, Hfn |].
    apply IH; [apply (Inv_step _ _ _ EvStartupNext s); [done|] | done |].
    + simpl. by rewrite Hw, Hfn.
    + simpl. lia.
Qed.

Lemma shutdown_report_arrives i : ∀ n s,
  Inv N M cfg s → pc s = MCollect i → (shutdown_fuel (sdW s) ≤ n)%nat →
  leads_to N M cfg s (λ s', pc s' = MReturned ∨ pc s' = MCollect (S i)).
Proof.
  induction n as [|n IH]; intros s HI Hpc Hfuel.
  all: pose proof (inv_main _ _ _ _ HI) as Hmain; unfold main_ok in Hmain;
    rewrite Hpc in Hmain; destruct Hmain as (_ & _ & Hsd & Hlen & Hlt & _).
  all: pose proof (inv_sdBound _ _ _ _ HI) as HB.
  all: destruct (fnErrs s) as [|e l] eqn:Hfn;
    [| eapply (leads_to_step EvRecvFnErrs s);
       [ done
       | simpl; rewrite Hpc, Hfn; simpl; reflexivity
       | apply leads_to_here; unfold collect_head, return_er;
         repeat case_match; simpl; auto ] ].
  all: rewrite app_nil_r in HB.
  all: destruct (sdW s) as [|k|k|k e|] eqn:Hw; simpl in *; try lia; try done.
  - apply (leads_to_step EvShutdownNext s (set_sdW (DWCall k) (log_sd (Invoke k) s))).
    + done.
    + simpl. rewrite Hw. destruct HB as [Hk ?].
      by rewrite (proj2 (Nat.ltb_lt k M)) by lia.
    + apply IH; [apply (Inv_step _ _ _ EvShutdownNext s); [done|] | done | simpl; lia].
      simpl. rewrite Hw. destruct HB as [Hk ?].
      by rewrite (proj2 (Nat.ltb_lt k M)) by lia.
  - apply (leads_to_step (EvShutdownReturn None) s
             (set_sdW (DWSend k None) (log_sd (Return k None) s)));
      [done | simpl; by rewrite Hw |].
    apply IH; [apply (Inv_step _ _ _ (EvShutdownReturn None) s); [done|] | done | simpl; lia].
    simpl. by rewrite Hw.
  - eapply (leads_to_step EvShutdownNext s);
      [done | simpl; rewrite Hw, Hfn; simpl; reflexivity |].
    eapply leads_to_step with (ev := EvRecvFnErrs);
      [done | simpl; rewrite Hpc; simpl; reflexivity |].
    apply leads_to_here. unfold collect_head, return_er. repeat case_match; simpl; auto.
Qed.

Lemma collect_returns : ∀ n s i,
  Inv N M cfg s → pc s = MCollect i → (M - i ≤ n)%nat →
  leads_to N M cfg s (λ s', pc s' = MReturned).
Proof.
  induction n as [|n IH]; intros s i HI Hpc Hn.
  all: pose proof (inv_main _ _ _ _ HI) as Hmain; unfold main_ok in Hmain;
    rewrite Hpc in Hmain; destruct Hmain as (_ & _ & _ & _ & Hlt & _).
  { lia. }
  apply (leads_to_trans s (λ s', pc s' = MReturned ∨ pc s' = MCollect (S i))); [done | |].
  - apply (shutdown_report_arrives i 3); [done | done |]. destruct (sdW s); simpl; lia.
  - intros s1 HI1 [Hr|Hc]; [by apply leads_to_here|].
    apply (IH s1 (S i)); [done | done | lia].
Qed.

Lemma trigger_returns s :
  Inv N M cfg s → pc s = MTrigger → leads_to N M cfg s (λ s', pc s' = MReturned).
Proof.
  intros HI Hpc.
  apply (leads_to_step (EvShutdownCall None) s (set_rte (Shutdown None (rte s)) s));
    [done | done |].
  destruct (Shutdown None (rte s)) as [|e l] eqn:Hrte.
  { unfold Shutdown, Chan.try_send in Hrte. destruct (rte s); simpl in Hrte; done. }
  destruct (step N M cfg EvRecvRte (set_rte (e :: l) s)) as [s2|] eqn:Hs2;
    [| simpl in Hs2; by rewrite Hpc in Hs2].
  assert (Inv N M cfg s2) as HI2.
  { apply (Inv_step _ _ _ EvRecvRte (set_rte (e :: l) s)); [by apply Inv_set_rte | done]. }
  apply (leads_to_step EvRecvRte _ s2); [done | done |].
  simpl in Hs2. rewrite Hpc in Hs2. simpl in Hs2. apply (inj Some) in Hs2.
  unfold begin_shutdown, collect_head, return_er in Hs2.
  destruct (0 <? M)%nat eqn:HM.
  - apply (collect_returns M s2 0%nat); [done | by rewrite <- Hs2 | lia].
  - apply leads_to_here. by rewrite <- Hs2.
Qed.

Lemma Start_state_returns s :
  Inv N M cfg s → leads_to N M cfg s (λ s', pc s' = MReturned).
Proof.
  intros HI. destruct (pc s) as [| |i|] eqn:Hpc.
  - apply (leads_to_trans s (λ s', pc s' ≠ MStartupSelect)); [done | |].
    + by apply (startup_report_arrives (startup_fuel N (stW s))).
    + intros s1 HI1 Hne. destruct (pc s1) as [| |i|] eqn:Hpc1; [done | | |].
      * by apply trigger_returns.
      * by apply (collect_returns M s1 i); [| | lia].
      * by apply leads_to_here.
  - by apply trigger_returns.
  - by apply (collect_returns M s i); [| | lia].
  - by apply leads_to_here.
Qed.

End CanReturn.

(** X19: Start never deadlocks: whatever has happened so far, when the
    startup and shutdown functions that are yet to return return nil and
    Shutdown is called, Start returns, and no deadline has to pass for
    that. *)
Theorem Start_can_always_return N M opts rte0 evs s :
  Start N M opts rte0 evs = Some s →
  ∃ evs' s', forallb quiet evs' = true ∧
             Start N M opts rte0 (evs ++ evs') = Some s' ∧ is_Some (result s').
Proof.
  intros Hs.
  destruct (Start_state_returns N M _ s (Start_Inv _ _ _ _ _ _ Hs))
    as (evs' & s' & Hq & Hx & Hpc).
  exists evs', s'. split_and!; [done | by rewrite (Start_app _ _ _ _ _ _ _ Hs) |].
  unfold result. by rewrite Hpc.
Qed.

(** ** Concrete runs of Start and Multi *)

(** Runs a schedule. *)
Ltac run := vm_compute; reflexivity.

(** C1 as stated fails: with the first of two shutdown functions running,
    the shutdown goroutine has no step to take, and in no run at all are
    the two shutdown functions running at the same time. *)
Lemma two_shutdown_steps_never_overlap :
  (∃ s, Start 0 2 [] [] run_shutdown_first_running = Some s ∧
        sdLog s = [Invoke 0] ∧
        step 0 2 (Start_init [] []).1 EvShutdownNext s = None) ∧
  ¬ ∃ N opts rte0 evs s,
      Start N 2 opts rte0 evs = Some s ∧ running (sdLog s) 0 ∧ running (sdLog s) 1.
Proof.
  split.
  - eexists. split_and!; run.
  - intros (N & opts & rte0 & evs & s & Hs & H0 & H1).
    by pose proof (shutdown_one_at_a_time _ _ _ _ _ _ _ _ Hs H0 H1).
Qed.

Lemma shutdown_sequential_witness :
  ∃ s r, Start 0 2 [] [] run_shutdown_two = Some s ∧ result s = Some r ∧
    ((length (rxLog s) = 2%nat ∧ ErrsShutdown r = nonnil (rxLog s)) ∨
     ((length (rxLog s) < 2)%nat ∧ ctxErr (sdCtx s) = Some DeadlineExceeded ∧
      ErrsShutdown r = nonnil (rxLog s) ++ [Some DeadlineExceeded])).
Proof.
  eexists _, _. split; [run|]. split; [run|].
  apply (proj2 (proj2 (shutdown_sequential_until_done_or_timeout
                         0 2 [] [] run_shutdown_two _ ltac:(run)))); run.
Defined.

(** C2 as stated fails: the first startup function returns an error, and
    Start returns the deadline error of the startup context. *)
Lemma startup_error_replaced_by_deadline :
  ∃ s, Start 2 0 [WithStartupTimeout 1] [] run_startup_fails_at_deadline = Some s ∧
       Return 0 (Some boom) ∈ stLog s ∧
       result s = Some (set_ErrStartup (Some DeadlineExceeded) emptyExitReason).
Proof.
  eexists. split_and!; [run | | run].
  simpl. apply elem_of_cons. right. apply elem_of_cons. by left.
Qed.

(** The same with the context cancelled by the startup goroutine itself. *)
Lemma startup_error_replaced_by_cancel :
  ∃ s, Start 2 0 [WithStartupTimeout second] [] run_startup_fails_cancel_first = Some s ∧
       Return 0 (Some boom) ∈ stLog s ∧
       result s = Some (set_ErrStartup (Some Canceled) emptyExitReason).
Proof.
  eexists. split_and!; [run | | run].
  simpl. apply elem_of_cons. right. apply elem_of_cons. by left.
Qed.

Lemma startup_failure_witness :
  ∃ s, Start 2 1 [] [] run_startup_fails = Some s ∧
    result s = Some (set_ErrStartup (Some boom) emptyExitReason) ∧
    stLog s = calls_done 0 (replicate 0 None) ++ [Invoke 0; Return 0 (Some boom)] ∧
    (0 < 2)%nat ∧ sdW s = DWNone ∧ sdLog s = [].
Proof.
  eexists. split; [run|]. split; [run|].
  destruct (proj2 (startup_failure_stops_startup 2 1 [] [] run_startup_fails _ ltac:(run))
              0%nat boom) as (HL & Hlt & HW & HsdL & _).
  { simpl. apply elem_of_cons. right. apply elem_of_cons. by left. }
  split_and!; [exact HL | exact Hlt | exact HW | exact HsdL].
Defined.

Lemma shutdown_timeout_witness :
  ∃ s s', Start 0 2 [WithShutdownTimeout second] [] run_shutdown_deadline = Some s ∧
    Start 0 2 [WithShutdownTimeout second] [] (run_shutdown_deadline ++ [EvCtxDone]) =
      Some s' ∧
    result s' = Some (er s') ∧ rxLog s' = rxLog s ∧
    ErrsShutdown (er s') = [Some boom; Some DeadlineExceeded].
Proof.
  eexists.
  destruct (proj1 (shutdown_timeout_stops_collecting
                     0 2 [WithShutdownTimeout second] [] run_shutdown_deadline _ ltac:(run))
              1%nat) as (_ & _ & (s' & _ & Hs' & Hr & Hrx & He) & _); [run | discriminate |].
  exists s'. split; [run|]. split_and!; [exact Hs' | exact Hr | exact Hrx |].
  rewrite He. run.
Defined.

(** C3 as stated fails.  The first of two shutdown functions has reported
    an error, the second has not reported, and the deadline passes: when the
    report is still on the channel and the select takes the Done case, the
    report is lost; when the report is received and the second function
    reports before Start selects, the select can take that report, and
    Start returns both errors and no deadline error. *)
Lemma shutdown_timeout_depends_on_select :
  (∃ s r, Start 0 2 [WithShutdownTimeout second] [] run_shutdown_report_lost = Some s ∧
     sdLog s = [Invoke 0; Return 0 (Some boom)] ∧ fnErrs s = [Some boom] ∧
     result s = Some r ∧ ErrsShutdown r = [Some DeadlineExceeded]) ∧
  (∃ s0 s r, Start 0 2 [WithShutdownTimeout second] [] run_shutdown_deadline = Some s0 ∧
     rxLog s0 = [Some boom] ∧ ctxErr (sdCtx s0) = Some DeadlineExceeded ∧
     sdLog s0 = [Invoke 0; Return 0 (Some boom); Invoke 1] ∧
     Start 0 2 [WithShutdownTimeout second] [] run_shutdown_late_report = Some s ∧
     result s = Some r ∧ ErrsShutdown r = [Some boom; Some late]).
Proof. split; [eexists _, _ | eexists _, _, _]; split_and!; run. Qed.



Lemma ErrsShutdown_never_nil_witness :
  ∃ s r, Start 0 2 [] [] run_shutdown_two = Some s ∧ result s = Some r ∧
    ErrsShutdown r = [Some boom] ∧
    Forall (λ e, e ≠ None) (ErrsShutdown r) ∧ is_Some (ToPrintable (λ _, "signal") r).
Proof.
  eexists _, _. split; [run|]. split; [run|]. split; [run|].
  exact (ErrsShutdown_never_nil (λ _, "signal") 0 2 [] [] run_shutdown_two
           _ _ ltac:(run) ltac:(run)).
Defined.

Lemma invalid_timeout_option_witness :
  ∃ s e, Start 1 1 ([WithSignals [SIGTERM]] ++ WithShutdownTimeout 0 :: []) []
           [EvShutdownCall None] = Some s ∧
    (parseOptions defaultConfig
       ([WithSignals [SIGTERM]] ++ WithShutdownTimeout 0 :: [])).2 = Some e ∧
    e = ErrString "shutdown timeout must be positive" ∧
    result s = Some (set_ErrStartup (Some e) emptyExitReason) ∧
    stLog s = [] ∧ sdLog s = [].
Proof.
  eexists.
  destruct (invalid_timeout_option_fails 1 1 [WithSignals [SIGTERM]]
              (WithShutdownTimeout 0) [] [] [EvShutdownCall None] _
              (or_intror eq_refl) ltac:(intros d [= <-]; lia) ltac:(run))
    as (e & Hp & Hr & HstL & HsdL & _).
  exists e. split_and!; [run | done | | done | done | done].
  vm_compute in Hp. by injection Hp as <-.
Defined.




Lemma Multi_of_nothing_witness :
  ∃ s, Multi 0 (Some Canceled) [MEvCancel DeadlineExceeded] = Some s ∧
       multi_result s = Some None.
Proof.
  eexists. split; [run|].
  exact (Multi_of_nothing_returns_nil (Some Canceled) [MEvCancel DeadlineExceeded] _
           ltac:(run)).
Defined.

(** ** More concrete runs *)

(** Membership in a list that is written out. *)
Ltac in_list :=
  solve [repeat first [by apply elem_of_cons; left | apply elem_of_cons; right]].

Lemma parseOptions_last_timeout_wins_witness :
  parseOptions defaultConfig
    [WithStartupTimeout 5; WithSignals [1%nat]; WithStartupTimeout 7; WithSignals [3%nat]] =
  (mkConfig 0 7 [Interrupt; SIGINT; SIGTERM; 1%nat; 3%nat], None).
Proof.
  exact (parseOptions_last_timeout_wins_signals_accumulate defaultConfig
           [WithStartupTimeout 5; WithSignals [1%nat]; WithStartupTimeout 7;
            WithSignals [3%nat]] eq_refl).
Defined.

Lemma parseOptions_stops_at_first_invalid_witness :
  ∃ e, parseOptions defaultConfig
         ([WithShutdownTimeout second] ++
          mkOption optionSignals (VDuration 1) :: [WithStartupTimeout 0]) =
       ((parseOptions defaultConfig [WithShutdownTimeout second]).1, Some e) ∧
       (parseOptions defaultConfig [mkOption optionSignals (VDuration 1)]).2 = Some e.
Proof.
  exact (parseOptions_stops_at_first_invalid defaultConfig [WithShutdownTimeout second]
           (mkOption optionSignals (VDuration 1)) [WithStartupTimeout 0] eq_refl eq_refl).
Defined.

Lemma ToPrintable_renders_witness :
  ∃ p, ToPrintable (λ _, "terminated")
         (mkExitReason (Some SIGTERM) None None [Some boom; Some DeadlineExceeded]) = Some p ∧
       p = mkPrintable "terminated" "" "" ["boom"; "context deadline exceeded"] ∧
       length (pErrsShutdown p) = 2%nat.
Proof.
  eexists. split; [reflexivity|].
  exact (ToPrintable_renders_each_field (λ _, "terminated")
           (mkExitReason (Some SIGTERM) None None [Some boom; Some DeadlineExceeded])
           _ eq_refl).
Defined.

Lemma shutdown_runs_only_after_startup_witness :
  ∃ s, Start 0 2 [] [] run_shutdown_first_running = Some s ∧
    stLog s = calls_done 0 (replicate 0 None) ∧ ErrStartup (er s) = None ∧
    before_trigger (pc s) = false ∧
    (EvRecvRte ∈ run_shutdown_first_running ∨ EvRecvSig ∈ run_shutdown_first_running).
Proof.
  eexists. split; [run|].
  apply (shutdown_runs_only_after_startup_and_trigger 0 2 [] [] run_shutdown_first_running
           _ ltac:(run)).
  vm_compute. discriminate.
Defined.

Lemma Start_returns_only_after_trigger_witness :
  EvRecvRte ∈ run_shutdown_two ∨ EvRecvSig ∈ run_shutdown_two.
Proof.
  exact (Start_returns_only_after_trigger 0 2 [] [] run_shutdown_two _ _
           ltac:(run) ltac:(run) ltac:(run)).
Defined.

Lemma Start_without_shutdown_functions_witness :
  ∃ s, Start 0 0 [WithShutdownTimeout second] [] run_to_trigger = Some s ∧
    sdLog s = [] ∧ rxLog s = [] ∧ result s = Some emptyExitReason.
Proof.
  eexists. split; [run|].
  destruct (Start_without_shutdown_functions 0 [WithShutdownTimeout second] [] run_to_trigger
              _ ltac:(run)) as (HL & Hrx & _).
  split_and!; [exact HL | exact Hrx | run].
Defined.

Lemma Start_records_first_signal_witness :
  ∃ s, Start 0 0 [] [] run_two_signals = Some s ∧
       OsSignal (er s) = Some SIGTERM ∧ head (signals_of run_two_signals) = Some SIGTERM.
Proof.
  eexists. split; [run|]. split; [run|].
  exact (proj1 (Start_records_first_signal 0 0 [] [] run_two_signals _ ltac:(run))
           SIGTERM ltac:(run)).
Defined.

Lemma Start_records_first_shutdown_request_witness :
  ∃ s, Start 0 0 [] [] run_early_request = Some s ∧
       ErrRuntime (er s) = Some boom ∧
       head ([] ++ requests_of run_early_request) = Some (ErrRuntime (er s)).
Proof.
  eexists. split; [run|]. split; [run|].
  apply (Start_records_first_shutdown_request 0 0 [] [] run_early_request _ ltac:(run)).
  unfold run_early_request. in_list.
Defined.

Lemma recorded_signal_is_configured_witness :
  SIGTERM ∈ [Interrupt; SIGINT; SIGTERM] ++ concat (signal_lists []).
Proof.
  exact (recorded_signal_is_configured 0 0 [] [] run_two_signals _ SIGTERM
           ltac:(run) ltac:(run)).
Defined.

Lemma monitored_signal_triggers_shutdown_witness :
  ∃ s s1 s2,
    Start 0 1 [WithSignals [1%nat]] [] run_to_monitoring = Some s ∧
    step 0 1 (Start_init [WithSignals [1%nat]] []).1 (EvSignal 1%nat) s = Some s1 ∧
    step 0 1 (Start_init [WithSignals [1%nat]] []).1 EvRecvSig s1 = Some s2 ∧
    er s2 = set_OsSignal (Some 1%nat) emptyExitReason ∧
    before_trigger (pc s2) = false ∧ sdW s2 = DWLoop 0.
Proof.
  eexists.
  destruct (monitored_signal_triggers_shutdown 0 1 [WithSignals [1%nat]] [] run_to_monitoring
              _ 1%nat ltac:(run) ltac:(run) ltac:(run)) as (s1 & s2 & H).
  { simpl. in_list. }
  exists s1, s2. split; [run | exact H].
Defined.

Lemma signals_after_trigger_witness :
  ∃ s s', Start 0 2 [] [] run_shutdown_first_running = Some s ∧
    step 0 2 (Start_init [] []).1 (EvSignal SIGINT) s = Some s' ∧
    s' = set_osSig (osSig s') s.
Proof.
  eexists.
  destruct (signals_after_trigger_change_nothing 0 2 [] [] run_shutdown_first_running
              _ SIGINT ltac:(run) ltac:(run) ltac:(run)) as (s' & Hs' & Heq & _).
  { simpl. in_list. }
  exists s'. split; [run | by split].
Defined.

Lemma shutdown_calls_stop_after_return_witness :
  ∃ s s', Start 0 3 [WithShutdownTimeout second] []
            (run_to_trigger ++ [EvShutdownNext; EvShutdownDeadline; EvCtxDone]) = Some s ∧
    Start 0 3 [WithShutdownTimeout second] [] run_shutdown_abandoned = Some s' ∧
    result s' = result s ∧ rxLog s' = rxLog s ∧ length (rxLog s) = 0%nat ∧
    ∀ i, Invoke i ∈ sdLog s' → (i ≤ length (rxLog s) + 1)%nat.
Proof.
  eexists _, _. split; [run|]. split; [run|].
  destruct (proj2 (shutdown_calls_stop_after_return 0 3 [WithShutdownTimeout second] []
                     (run_to_trigger ++ [EvShutdownNext; EvShutdownDeadline; EvCtxDone])
                     _ ltac:(run))
              _ [EvShutdownReturn None; EvShutdownNext; EvShutdownNext;
                 EvShutdownReturn (Some boom)] _ ltac:(run) ltac:(run))
    as (Hr & Hrx & Hb).
  split_and!; [run | exact Hrx | run | exact Hb].
Defined.

Lemma shutdown_goroutine_blocks_witness :
  ∃ s, Start 0 3 [WithShutdownTimeout second] [] run_shutdown_abandoned = Some s ∧
    sdW s = DWSend 1 (Some boom) ∧ fnErrs s = [None] ∧
    step 0 3 (Start_init [WithShutdownTimeout second] []).1 EvShutdownNext s = None ∧
    ∀ evs' s', Start 0 3 [WithShutdownTimeout second] []
                 (run_shutdown_abandoned ++ evs') = Some s' →
      sdW s' = DWSend 1 (Some boom) ∧ fnErrs s' = fnErrs s ∧
      Return 1 (Some boom) ∈ sdLog s' ∧ ∀ j, Invoke j ∈ sdLog s' → (j ≤ 1)%nat.
Proof.
  eexists. split; [run|]. split; [run|]. split; [run|].
  apply (shutdown_goroutine_blocks_after_return 0 3 [WithShutdownTimeout second] []
           run_shutdown_abandoned _ _ 1%nat (Some boom) ltac:(run) ltac:(run) ltac:(run)).
  vm_compute. discriminate.
Defined.

Lemma startup_goroutine_never_blocks_witness :
  ∃ s, Start 2 0 [WithStartupTimeout second] [] run_startup_abandoned = Some s ∧
    result s = Some (set_ErrStartup (Some DeadlineExceeded) emptyExitReason) ∧
    stW s = SWSendErr 0 boom ∧
    is_Some (step 2 0 (Start_init [WithStartupTimeout second] []).1 EvStartupNext s).
Proof.
  eexists. split; [run|]. split; [run|]. split; [run|].
  exact (startup_goroutine_never_blocks 2 0 [WithStartupTimeout second] []
           run_startup_abandoned _ ltac:(run) ltac:(run)).
Defined.

Lemma ErrStartup_origin_witness :
  ∃ s, Start 2 0 [WithStartupTimeout second] [] run_startup_fails_cancel_first = Some s ∧
    result s = Some (set_ErrStartup (Some Canceled) emptyExitReason) ∧
    (((parseOptions defaultConfig [WithStartupTimeout second]).2 = Some Canceled ∧
      stLog s = [] ∧ sdLog s = []) ∨
     ((parseOptions defaultConfig [WithStartupTimeout second]).2 = None ∧
      ((∃ i, Return i (Some Canceled) ∈ stLog s) ∨
       (0 < startupTimeout (Start_init [WithStartupTimeout second] []).1 ∧
        (Canceled = DeadlineExceeded ∨
         (Canceled = Canceled ∧ ∃ i y, Return i (Some y) ∈ stLog s)))))).
Proof.
  eexists. split; [run|]. split; [run|].
  exact (ErrStartup_origin 2 0 [WithStartupTimeout second] [] run_startup_fails_cancel_first
           _ _ Canceled ltac:(run) ltac:(run) ltac:(run)).
Defined.

Lemma no_shutdown_timeout_waits_witness :
  ∃ s r, Start 0 2 [] [] run_shutdown_two = Some s ∧ result s = Some r ∧
    length (rxLog s) = 2%nat ∧ sdLog s = calls_done 0 (rxLog s) ∧
    ErrsShutdown r = nonnil (rxLog s).
Proof.
  eexists _, _. split; [run|]. split; [run|].
  exact (no_shutdown_timeout_waits_for_all 0 2 [] [] run_shutdown_two _ _
           ltac:(run) ltac:(run) ltac:(run) ltac:(run)).
Defined.

Lemma Start_can_always_return_witness :
  ∃ evs' s', forallb quiet evs' = true ∧
    Start 2 2 [] [] ([EvStartupNext] ++ evs') = Some s' ∧ is_Some (result s').
Proof.
  exact (Start_can_always_return 2 2 [] [] [EvStartupNext] _ ltac:(run)).
Defined.

Lemma Multi_goroutines_never_block_witness :
  ∃ s s', Multi 2 None run_multi_abandoned = Some s ∧
    multi_result s = Some (Some Canceled) ∧
    multi_step (MEvSend 0) s = Some s' ∧ workers s' !! 0%nat = Some MWEnd ∧
    mpc s' = mpc s ∧ reported s' = reported s ++ [(0%nat, None)].
Proof.
  eexists.
  destruct (Multi_goroutines_never_block 2 None run_multi_abandoned _ 0 None
              ltac:(run) ltac:(run)) as (s' & H).
  exists s'. split; [run|]. split; [run | exact H].
Defined.

Lemma Multi_result_sound_witness :
  ∃ s, Multi 3 None run_multi_one_fails = Some s ∧
    multi_result s = Some (Some boom) ∧
    (mctx s = Some boom ∨ ∃ j, (j, Some boom) ∈ reported s).
Proof.
  eexists. split; [run|]. split; [run|].
  exact (proj2 (Multi_result_sound 3 None run_multi_one_fails _ (Some boom)
                  ltac:(run) ltac:(run)) boom eq_refl).
Defined.

Lemma Multi_one_report_per_function_witness :
  ∃ s, Multi 3 None run_multi_one_fails = Some s ∧
    (reported s).*1 = [2; 0; 1]%nat ∧ (reported s).*1 ≡ₚ seq 0 3.
Proof.
  eexists. split; [run|]. split; [run|].
  apply (proj2 (proj2 (Multi_one_report_per_function 3 None run_multi_one_fails _
                         ltac:(run)))).
  run.
Defined.

Lemma startup_context_ends_witness :
  ∃ s, Start 0 0 [WithStartupTimeout second] [] run_to_monitoring = Some s ∧
    pc s = MTrigger ∧ ctxErr (stCtx s) = Some Canceled ∧
    (∃ e, stCtx s = WithTimeout e) ∧ (pc s ≠ MStartupSelect → ctxErr (stCtx s) ≠ None).
Proof.
  eexists. split; [run|]. split; [run|]. split; [run|].
  apply (proj1 (startup_context_ends_with_startup 0 0 [WithStartupTimeout second] []
                  run_to_monitoring _ ltac:(run) ltac:(run))).
  run.
Defined.

